(** * Pointer-style array primitives of [pointer_array.c]

    A shallow embedding of the four functions of [pointer_array.c]
    ([array_sum_ptr], [array_reverse_ptr], [array_copy_ptr] and
    [array_max_ptr]) over a flat store of [int] cells, together with the
    properties the specification states about them.

    Conventions of the embedding:
    - a pointer to [int] is the index of a cell ([Z]); [NULL] is index 0;
      pointer arithmetic [p + n] and the comparisons [p < q], [p >= q] are
      those of [Z] on cell indices;
    - the store is a finite map from cell indices to the [int] held there;
      reading or writing a cell that is not part of the store is undefined
      behaviour in C and is the result [None] here;
    - [int] values are integers ([Z]); the addition [sum += *p] is the
      two's-complement addition of the platform, written out with its
      wrap-around (the source states that overflow is left unhandled); the
      width of [int] is a parameter of the development, [<limits.h>] fixes
      it together with [INT_MIN];
    - [size_t] lengths are binary naturals ([N]);
    - a function that only reads returns [option Z]; one that writes
      returns its [int] result paired with the store it leaves. *)

From Equations Require Import Equations.
From stdpp Require Import gmap list.
From Stdlib Require Import ZArith Lia.

Local Open Scope Z_scope.

(** ** The store *)

(** Cell-indexed memory of [int] objects. *)
Abbreviation mem := (gmap Z Z).

(** The null pointer. *)
Definition NULL : Z := 0.

(** [*p] as an rvalue. *)
Definition load (m : mem) (p : Z) : option Z := m !! p.

(** [*p = v]: only an existing object can be assigned to. *)
Definition store (m : mem) (p : Z) (v : Z) : option mem :=
  match m !! p with
  | Some _ => Some (<[p := v]> m)
  | None => None
  end.

(** The [len] cells starting at [arr], read in ascending order; [None] when
    one of them is not part of the store. *)
Definition array_elems (m : mem) (arr : Z) (len : N) : option (list Z) :=
  mapM (λ a, m !! a) (seqZ arr (Z.of_N len)).

(** The sum of a list of integers, in [Z]. *)
Definition sum_Z (l : list Z) : Z := foldr Z.add 0 l.

(** ** The four functions *)

Section Functions.

(** Number of bits of [int], sign bit included. *)
Variable int_bits : positive.

Definition int_modulus : Z := 2 ^ Z.pos int_bits.
Definition INT_MIN : Z := - 2 ^ (Z.pos int_bits - 1).
Definition INT_MAX : Z := 2 ^ (Z.pos int_bits - 1) - 1.

(** The representative of [x] modulo [2 ^ int_bits] that an [int] holds. *)
Definition int_wrap (x : Z) : Z :=
  (x - INT_MIN) mod int_modulus + INT_MIN.

(** [a + b] on [int]. *)
Definition int_add (a b : Z) : Z := int_wrap (a + b).

(** *** [array_sum_ptr] *)

(** [while (p < end) { sum += *p; ++p; }] *)
Equations? sum_loop (m : mem) (p end_ : Z) (sum : Z) : option Z
  by wf (Z.to_nat (end_ - p)) lt :=
  sum_loop m p end_ sum with Z_lt_dec p end_ := {
    | left _ with load m p := {
        | Some v => sum_loop m (p + 1) end_ (int_add sum v);
        | None => None };
    | right _ => Some sum }.
Proof. lia. Qed.

Definition array_sum_ptr (arr : Z) (len : N) (m : mem) : option Z :=
  if bool_decide (arr = NULL) && (0 <? len)%N then
    Some 0
  else
    let p := arr in
    let end_ := arr + Z.of_N len in
    let sum := 0 in
    sum_loop m p end_ sum.

(** *** [array_reverse_ptr] *)

(** [const int tmp = *p; *p = *q; *q = tmp;] *)
Definition swap_cells (m : mem) (p q : Z) : option mem :=
  tmp ← load m p;
  v ← load m q;
  m1 ← store m p v;
  store m1 q tmp.

(** [while (left < right) { --right; if (left >= right) break; swap;
    ++left; }] *)
Equations? reverse_loop (m : mem) (left_ right_ : Z) : option mem
  by wf (Z.to_nat (right_ - left_)) lt :=
  reverse_loop m left_ right_ with Z_lt_dec left_ right_ := {
    | left _ with Z_ge_dec left_ (right_ - 1) := {
        | left _ => Some m;
        | right _ with swap_cells m left_ (right_ - 1) := {
            | Some m' => reverse_loop m' (left_ + 1) (right_ - 1);
            | None => None } };
    | right _ => Some m }.
Proof. lia. Qed.

Definition array_reverse_ptr (arr : Z) (len : N) (m : mem)
  : option (Z * mem) :=
  if bool_decide (arr = NULL) && (0 <? len)%N then
    Some (-1, m)
  else
    let left_ := arr in
    let right_ := arr + Z.of_N len in
    m' ← reverse_loop m left_ right_;
    Some (0, m').

(** *** [array_copy_ptr] *)

(** [*d = *s;] *)
Definition copy_cell (m : mem) (d s : Z) : option mem :=
  v ← load m s;
  store m d v.

(** [while (s < end) { *d = *s; ++d; ++s; }] *)
Equations? copy_loop (m : mem) (d s end_ : Z) : option mem
  by wf (Z.to_nat (end_ - s)) lt :=
  copy_loop m d s end_ with Z_lt_dec s end_ := {
    | left _ with copy_cell m d s := {
        | Some m' => copy_loop m' (d + 1) (s + 1) end_;
        | None => None };
    | right _ => Some m }.
Proof. lia. Qed.

Definition array_copy_ptr (dst src : Z) (len : N) (m : mem)
  : option (Z * mem) :=
  if (bool_decide (dst = NULL) || bool_decide (src = NULL)) && (0 <? len)%N
  then
    Some (-1, m)
  else
    let d := dst in
    let s := src in
    let end_ := src + Z.of_N len in
    m' ← copy_loop m d s end_;
    Some (0, m').

(** *** [array_max_ptr] *)

(** [if (ok != NULL) { *ok = v; }] *)
Definition set_flag (m : mem) (ok : Z) (v : Z) : option mem :=
  if bool_decide (ok ≠ NULL) then store m ok v else Some m.

(** [while (p < end) { if ( *p > maxv ) { maxv = *p; } ++p; }] *)
Equations? max_loop (m : mem) (p end_ : Z) (maxv : Z) : option Z
  by wf (Z.to_nat (end_ - p)) lt :=
  max_loop m p end_ maxv with Z_lt_dec p end_ := {
    | left _ with load m p := {
        | Some v => max_loop m (p + 1) end_ (if v >? maxv then v else maxv);
        | None => None };
    | right _ => Some maxv }.
Proof. lia. Qed.

Definition array_max_ptr (arr : Z) (len : N) (ok : Z) (m : mem)
  : option (Z * mem) :=
  m0 ← set_flag m ok 0;
  if bool_decide (arr = NULL) || (len =? 0)%N then
    Some (INT_MIN, m0)
  else
    let p := arr in
    let end_ := arr + Z.of_N len in
    maxv ← load m0 p;
    let p := p + 1 in
    maxv ← max_loop m0 p end_ maxv;
    m1 ← set_flag m0 ok 1;
    Some (maxv, m1).

End Functions.

(** ** Outcome of a successful [array_max_ptr] *)

(** What the specification asks of the value [v] returned and the store
    [m'] left by a call on a sequence holding [l] with flag slot [ok]: [v]
    is at least every element, it is one of the elements, and the flag,
    when the caller passed one, reports success. *)
Definition max_found (l : list Z) (ok : Z) (v : Z) (m' : mem) : Prop :=
  Forall (λ x, x ≤ v) l ∧ v ∈ l ∧ (ok ≠ NULL → m' !! ok = Some 1).

(** The flag slot is either not passed, or an object of the store that is
    not one of the [len] cells of the sequence. *)
Definition flag_apart (m : mem) (arr : Z) (len : N) (ok : Z) : Prop :=
  ok = NULL ∨ (is_Some (m !! ok) ∧ ¬ (arr ≤ ok < arr + Z.of_N len)).

(** ** Sample stores *)

(** [{1, 2, 3, 4}] at cells 10..13. *)
Definition mem_1234 : mem := list_to_map [(10, 1); (11, 2); (12, 3); (13, 4)].

(** [{1, 2, 3, 4, 5}] at cells 10..14. *)
Definition mem_12345 : mem :=
  list_to_map [(10, 1); (11, 2); (12, 3); (13, 4); (14, 5)].

(** [{7, 8, 9}] at cells 20..22 and an uninitialised-looking [dst[3]] at
    cells 30..32. *)
Definition mem_copy : mem :=
  list_to_map [(20, 7); (21, 8); (22, 9); (30, 0); (31, 0); (32, 0)].

(** [{3, -1, 7, 2}] at cells 10..13 and a flag slot at cell 40. *)
Definition mem_max : mem :=
  list_to_map [(10, 3); (11, -1); (12, 7); (13, 2); (40, 99)].

(** [{INT_MAX, 1}] for a 32-bit [int] at cells 10..11. *)
Definition mem_overflow : mem := list_to_map [(10, 2147483647); (11, 1)].

(** A one-element array [{5}] at cell 10. *)
Definition mem_5 : mem := {[ 10 := 5 ]}.


(** [{INT_MAX, 1, -1}] for a 32-bit [int] at cells 10..12: the exact sum
    fits, the partial sum after two elements does not. *)
Definition mem_partial : mem :=
  list_to_map [(10, 2147483647); (11, 1); (12, -1)].

(** ** Concrete runs *)

Example sum_1234 : array_sum_ptr 32 10 4 mem_1234 = Some 10.
Proof. reflexivity. Qed.

Example sum_overflow :
  array_sum_ptr 32 10 2 mem_overflow = Some (-2147483648).
Proof. reflexivity. Qed.

Example sum_absent_0 : array_sum_ptr 32 NULL 0 ∅ = Some 0.
Proof. reflexivity. Qed.

Example reverse_12345 :
  array_reverse_ptr 10 5 mem_12345
  = Some (0, list_to_map [(10, 5); (11, 4); (12, 3); (13, 2); (14, 1)]).
Proof. vm_compute. reflexivity. Qed.

Example reverse_empty : array_reverse_ptr 10 0 mem_12345 = Some (0, mem_12345).
Proof. reflexivity. Qed.

Example copy_789 :
  array_copy_ptr 30 20 3 mem_copy
  = Some (0, list_to_map
               [(20, 7); (21, 8); (22, 9); (30, 7); (31, 8); (32, 9)]).
Proof. vm_compute. reflexivity. Qed.

Example copy_upward_overlap :
  array_copy_ptr 11 10 4 mem_12345
  = Some (0, list_to_map [(10, 1); (11, 1); (12, 1); (13, 1); (14, 1)]).
Proof. vm_compute. reflexivity. Qed.

Example copy_downward_overlap :
  array_copy_ptr 10 11 4 mem_12345
  = Some (0, list_to_map [(10, 2); (11, 3); (12, 4); (13, 5); (14, 5)]).
Proof. vm_compute. reflexivity. Qed.

Example max_3m172 :
  array_max_ptr 32 10 4 40 mem_max = Some (7, <[40 := 1]> mem_max).
Proof. vm_compute. reflexivity. Qed.

Example max_absent_0 :
  array_max_ptr 32 NULL 0 40 mem_max = Some (- 2 ^ 31, <[40 := 0]> mem_max).
Proof. vm_compute. reflexivity. Qed.

Example max_aliased :
  array_max_ptr 32 10 1 10 mem_5 = Some (0, {[ 10 := 1 ]}).
Proof. vm_compute. reflexivity. Qed.

(** ** The loops, one iteration at a time *)

Section Steps.

Variable int_bits : positive.

Lemma sum_loop_step (m : mem) (p end_ sum : Z) :
  sum_loop int_bits m p end_ sum =
  if decide (p < end_) then
    v ← load m p; sum_loop int_bits m (p + 1) end_ (int_add int_bits sum v)
  else Some sum.
Proof.
  simp sum_loop. destruct (Z_lt_dec p end_) as [Hlt|Hge]; simpl.
  - rewrite decide_True by done. destruct (load m p); reflexivity.
  - rewrite decide_False by done. reflexivity.
Qed.

Lemma max_loop_step (m : mem) (p end_ maxv : Z) :
  max_loop m p end_ maxv =
  if decide (p < end_) then
    v ← load m p; max_loop m (p + 1) end_ (if v >? maxv then v else maxv)
  else Some maxv.
Proof.
  simp max_loop. destruct (Z_lt_dec p end_) as [Hlt|Hge]; simpl.
  - rewrite decide_True by done. destruct (load m p); reflexivity.
  - rewrite decide_False by done. reflexivity.
Qed.

Lemma copy_loop_step (m : mem) (d s end_ : Z) :
  copy_loop m d s end_ =
  if decide (s < end_) then
    m' ← copy_cell m d s; copy_loop m' (d + 1) (s + 1) end_
  else Some m.
Proof.
  simp copy_loop. destruct (Z_lt_dec s end_) as [Hlt|Hge]; simpl.
  - rewrite decide_True by done. destruct (copy_cell m d s); reflexivity.
  - rewrite decide_False by done. reflexivity.
Qed.

Lemma reverse_loop_step (m : mem) (left_ right_ : Z) :
  reverse_loop m left_ right_ =
  if decide (left_ < right_) then
    if decide (left_ >= right_ - 1) then Some m
    else m' ← swap_cells m left_ (right_ - 1);
         reverse_loop m' (left_ + 1) (right_ - 1)
  else Some m.
Proof.
  simp reverse_loop. destruct (Z_lt_dec left_ right_) as [Hlt|Hge]; simpl.
  - rewrite decide_True by done.
    destruct (Z_ge_dec left_ (right_ - 1)) as [Hbr|Hgo]; simpl.
    + rewrite decide_True by done. reflexivity.
    + rewrite decide_False by done.
      destruct (swap_cells m left_ (right_ - 1)); reflexivity.
  - rewrite decide_False by done. reflexivity.
Qed.

End Steps.

(** ** Reading a sequence out of the store *)

Lemma array_elems_Some (m : mem) (arr : Z) (len : N) (l : list Z) :
  array_elems m arr len = Some l ↔
  length l = N.to_nat len ∧
  ∀ i : nat, (i < N.to_nat len)%nat → m !! (arr + Z.of_nat i) = l !! i.
Proof.
  unfold array_elems. rewrite mapM_Some, Forall2_same_length_lookup.
  rewrite length_seqZ.
  replace (Z.to_nat (Z.of_N len)) with (N.to_nat len) by lia. split.
  - intros [Hlen Hat]. split; [done|]. intros i Hi.
    destruct (lookup_lt_is_Some_2 l i) as [y Hy]; [lia|].
    rewrite Hy. apply (Hat i); [|done].
    apply lookup_seqZ. lia.
  - intros [Hlen Hat]. split; [done|]. intros i a y Ha Hy.
    apply lookup_seqZ in Ha as [-> Hi]. rewrite <- Hy. apply Hat. lia.
Qed.

Lemma array_elems_length (m : mem) (arr : Z) (len : N) (l : list Z) :
  array_elems m arr len = Some l → length l = N.to_nat len.
Proof. intros H. by apply array_elems_Some in H as [? _]. Qed.

Lemma array_elems_lookup (m : mem) (arr : Z) (len : N) (l : list Z) (i : Z) :
  array_elems m arr len = Some l → 0 ≤ i < Z.of_N len →
  m !! (arr + i) = l !! Z.to_nat i ∧ is_Some (m !! (arr + i)).
Proof.
  intros H Hi. apply array_elems_Some in H as [Hlen Hat].
  assert (m !! (arr + i) = l !! Z.to_nat i) as Heq.
  { rewrite <- (Hat (Z.to_nat i)) by lia. f_equal. lia. }
  split; [done|]. rewrite Heq. apply lookup_lt_is_Some_2. lia.
Qed.

Lemma array_elems_ext (m m' : mem) (arr : Z) (len : N) :
  (∀ i, 0 ≤ i < Z.of_N len → m' !! (arr + i) = m !! (arr + i)) →
  array_elems m' arr len = array_elems m arr len.
Proof.
  intros Hext. unfold array_elems. apply Forall_mapM_ext, Forall_seqZ.
  intros a Ha. replace a with (arr + (a - arr)) by lia. apply Hext. lia.
Qed.

(** ** Arithmetic of [int] *)

Section IntArith.

Variable int_bits : positive.

Lemma int_modulus_half : int_modulus int_bits = 2 * 2 ^ (Z.pos int_bits - 1).
Proof.
  unfold int_modulus. rewrite <- Z.pow_succ_r by lia. f_equal. lia.
Qed.

Lemma int_modulus_pos : 0 < int_modulus int_bits.
Proof. unfold int_modulus. apply Z.pow_pos_nonneg; lia. Qed.

Lemma int_wrap_range (x : Z) :
  INT_MIN int_bits ≤ int_wrap int_bits x ≤ INT_MAX int_bits.
Proof.
  unfold int_wrap, INT_MAX.
  pose proof (Z.mod_pos_bound (x - INT_MIN int_bits) (int_modulus int_bits)
                int_modulus_pos).
  pose proof int_modulus_half. unfold INT_MIN in *. lia.
Qed.

Lemma int_wrap_mod (x : Z) :
  int_wrap int_bits x mod int_modulus int_bits = x mod int_modulus int_bits.
Proof.
  unfold int_wrap. pose proof int_modulus_pos.
  rewrite Zplus_mod_idemp_l. f_equal. lia.
Qed.

Lemma int_wrap_id (x : Z) :
  INT_MIN int_bits ≤ x ≤ INT_MAX int_bits → int_wrap int_bits x = x.
Proof.
  intros Hx. unfold int_wrap. pose proof int_modulus_half.
  unfold INT_MIN, INT_MAX in *. rewrite Z.mod_small; lia.
Qed.

Lemma int_wrap_congr (x y : Z) :
  x mod int_modulus int_bits = y mod int_modulus int_bits →
  int_wrap int_bits x = int_wrap int_bits y.
Proof.
  intros Hxy. unfold int_wrap. f_equal.
  rewrite <- (Zminus_mod_idemp_l x), <- (Zminus_mod_idemp_l y). by rewrite Hxy.
Qed.

Lemma int_wrap_add_l (a b : Z) :
  int_wrap int_bits (int_wrap int_bits a + b) = int_wrap int_bits (a + b).
Proof.
  apply int_wrap_congr.
  rewrite <- Zplus_mod_idemp_l, int_wrap_mod, Zplus_mod_idemp_l. done.
Qed.

(** Accumulating with [int_add] from an [int] is adding in [Z] and wrapping
    once at the end. *)
Lemma foldl_int_add (l : list Z) (s : Z) :
  INT_MIN int_bits ≤ s ≤ INT_MAX int_bits →
  foldl (int_add int_bits) s l = int_wrap int_bits (s + sum_Z l).
Proof.
  revert s. induction l as [|x l IH]; intros s Hs; simpl.
  - rewrite Z.add_0_r. symmetry. by apply int_wrap_id.
  - rewrite IH by apply int_wrap_range.
    unfold int_add at 1. rewrite int_wrap_add_l. f_equal. lia.
Qed.

Lemma zero_is_int : INT_MIN int_bits ≤ 0 ≤ INT_MAX int_bits.
Proof.
  unfold INT_MIN, INT_MAX.
  assert (0 < 2 ^ (Z.pos int_bits - 1)) by (apply Z.pow_pos_nonneg; lia). lia.
Qed.

(** ** [array_sum_ptr] *)

Lemma sum_loop_foldl (m : mem) (l : list Z) (p sum : Z) :
  (∀ i : nat, (i < length l)%nat → m !! (p + Z.of_nat i) = l !! i) →
  sum_loop int_bits m p (p + Z.of_nat (length l)) sum
  = Some (foldl (int_add int_bits) sum l).
Proof.
  revert p sum. induction l as [|x l IH]; intros p sum Hat.
  - rewrite sum_loop_step, decide_False by (simpl; lia). done.
  - rewrite sum_loop_step, decide_True by (simpl; lia).
    unfold load. pose proof (Hat 0%nat ltac:(simpl; lia)) as H0.
    rewrite Z.add_0_r in H0. rewrite H0.
    replace (p + Z.of_nat (length (x :: l)))
      with (p + 1 + Z.of_nat (length l)) by (simpl; lia).
    simpl. apply IH. intros i Hi. change (l !! i) with ((x :: l) !! S i).
    rewrite <- Hat by (simpl; lia). f_equal. lia.
Qed.

(** C4. On a present sequence of [len] integers [array_sum_ptr] returns the
    sum of the elements, taken in the integers, reduced to the [int] that
    is congruent to it modulo [2 ^ int_bits]: the result is
    [int_wrap (sum_Z l)], which lies in [INT_MIN .. INT_MAX] and differs
    from the exact sum by a multiple of the modulus. *)
Theorem array_sum_ptr_wraps (m : mem) (arr : Z) (len : N) (l : list Z) :
  arr ≠ NULL →
  array_elems m arr len = Some l →
  array_sum_ptr int_bits arr len m = Some (int_wrap int_bits (sum_Z l))
  ∧ INT_MIN int_bits ≤ int_wrap int_bits (sum_Z l) ≤ INT_MAX int_bits
  ∧ int_wrap int_bits (sum_Z l) mod int_modulus int_bits
    = sum_Z l mod int_modulus int_bits.
Proof.
  intros Harr Hl. split; [|split; [apply int_wrap_range|apply int_wrap_mod]].
  unfold array_sum_ptr. rewrite bool_decide_eq_false_2 by done. simpl.
  apply array_elems_Some in Hl as [Hlen Hat].
  replace (Z.of_N len) with (Z.of_nat (length l)) by lia.
  rewrite sum_loop_foldl by (intros i Hi; apply Hat; lia).
  f_equal. apply (foldl_int_add l 0), zero_is_int.
Qed.

(** C7. [array_sum_ptr] returns 0 in both degenerate cases, whatever the
    store holds (so also on the empty store, where any read would be
    undefined): an absent reference with a positive length, and length 0
    with any reference. *)
Theorem array_sum_ptr_degenerate (arr : Z) (len : N) (m : mem) :
  (arr = NULL ∧ (0 < len)%N) ∨ len = 0%N →
  array_sum_ptr int_bits arr len m = Some 0.
Proof.
  intros [[-> Hlen] | ->]; unfold array_sum_ptr.
  - rewrite bool_decide_eq_true_2 by done.
    apply N.ltb_lt in Hlen. by rewrite Hlen.
  - rewrite andb_false_r. simpl. rewrite Z.add_0_r.
    rewrite sum_loop_step, decide_False by lia. done.
Qed.

End IntArith.

(** ** Cells *)

Lemma store_Some (m : mem) (p v : Z) :
  is_Some (m !! p) → store m p v = Some (<[p := v]> m).
Proof. intros [x Hx]. unfold store. by rewrite Hx. Qed.

Lemma insert_is_Some (m : mem) (p v a : Z) :
  is_Some (m !! a) → is_Some (<[p := v]> m !! a).
Proof. intros H. apply lookup_insert_is_Some'. by right. Qed.

Lemma swap_cells_Some (m : mem) (p q x y : Z) :
  m !! p = Some x → m !! q = Some y →
  swap_cells m p q = Some (<[q := x]> (<[p := y]> m)).
Proof.
  intros Hp Hq. unfold swap_cells, load. rewrite Hp, Hq. simpl.
  rewrite store_Some by eauto. simpl.
  apply store_Some, insert_is_Some. eauto.
Qed.

Lemma copy_cell_Some (m : mem) (d s v : Z) :
  m !! s = Some v → is_Some (m !! d) →
  copy_cell m d s = Some (<[d := v]> m).
Proof.
  intros Hs Hd. unfold copy_cell, load. rewrite Hs. simpl.
  by apply store_Some.
Qed.

(** ** [array_reverse_ptr] *)

(** The loop started on the cells [left_ .. right_ - 1] mirrors exactly
    that range and touches nothing else. *)
Lemma reverse_loop_mirror (n : nat) (m : mem) (left_ right_ : Z) :
  right_ - left_ ≤ Z.of_nat n →
  (∀ a, left_ ≤ a < right_ → is_Some (m !! a)) →
  ∃ m', reverse_loop m left_ right_ = Some m' ∧
    ∀ a, m' !! a = if decide (left_ ≤ a < right_)
                   then m !! (left_ + right_ - 1 - a) else m !! a.
Proof.
  revert m left_ right_.
  induction (lt_wf n) as [n _ IH]. intros m left_ right_ Hn Hvalid.
  rewrite reverse_loop_step. destruct (decide (left_ < right_)) as [Hlt|Hge].
  - destruct (decide (left_ >= right_ - 1)) as [Hbr|Hgo].
    + exists m. split; [done|]. intros a. case_decide; [|done].
      f_equal. lia.
    + destruct (Hvalid left_) as [x Hx]; [lia|].
      destruct (Hvalid (right_ - 1)) as [y Hy]; [lia|].
      rewrite (swap_cells_Some m _ _ x y) by done. simpl.
      destruct (IH (n - 2)%nat ltac:(lia)
                  (<[right_ - 1 := x]> (<[left_ := y]> m))
                  (left_ + 1) (right_ - 1)) as (m' & Hrun & Hm').
      { lia. }
      { intros a Ha. do 2 apply insert_is_Some. apply Hvalid. lia. }
      exists m'. split; [done|]. intros a. rewrite Hm'.
      repeat case_decide; try lia.
      * rewrite !lookup_insert_ne by lia. f_equal. lia.
      * destruct (decide (a = left_)) as [->|Hne].
        -- rewrite lookup_insert_ne, lookup_insert_eq by lia.
           rewrite <- Hy. f_equal. lia.
        -- assert (a = right_ - 1) as -> by lia.
           rewrite lookup_insert_eq, <- Hx. f_equal. lia.
      * rewrite !lookup_insert_ne by lia. done.
  - exists m. split; [done|]. intros a. rewrite decide_False by lia. done.
Qed.

(** What a call that passes the guard does to the whole store. *)
Lemma array_reverse_ptr_mirror (m : mem) (arr : Z) (len : N) :
  (arr = NULL → len = 0%N) →
  (∀ a, arr ≤ a < arr + Z.of_N len → is_Some (m !! a)) →
  ∃ m', array_reverse_ptr arr len m = Some (0, m') ∧
    ∀ a, m' !! a = if decide (arr ≤ a < arr + Z.of_N len)
                   then m !! (arr + (arr + Z.of_N len) - 1 - a)
                   else m !! a.
Proof.
  intros Hguard Hvalid. unfold array_reverse_ptr.
  assert (bool_decide (arr = NULL) && (0 <? len)%N = false) as ->.
  { apply andb_false_iff. destruct (decide (arr = NULL)) as [Hn|Hn].
    - right. rewrite (Hguard Hn). done.
    - left. by apply bool_decide_eq_false_2. }
  simpl.
  destruct (reverse_loop_mirror (N.to_nat len) m arr (arr + Z.of_N len))
    as (m' & -> & Hm'); [lia|done|].
  exists m'. done.
Qed.

Lemma array_elems_valid (m : mem) (arr : Z) (len : N) (l : list Z) :
  array_elems m arr len = Some l →
  ∀ a, arr ≤ a < arr + Z.of_N len → is_Some (m !! a).
Proof.
  intros Hl a Ha. replace a with (arr + (a - arr)) by lia.
  eapply array_elems_lookup; [done|lia].
Qed.

(** C1. On a present sequence of [len] elements [array_reverse_ptr] returns
    0 and leaves at every position [i < len] the element that was at
    position [len - 1 - i]; read back as a list, the sequence is the
    reversed list. With [len] 0 or 1 the store is left as it was, and in
    every case the cells outside the sequence keep their contents. *)
Theorem array_reverse_ptr_reverses (m : mem) (arr : Z) (len : N) (l : list Z) :
  arr ≠ NULL →
  array_elems m arr len = Some l →
  ∃ m', array_reverse_ptr arr len m = Some (0, m') ∧
    (∀ i, 0 ≤ i < Z.of_N len →
       m' !! (arr + i) = m !! (arr + (Z.of_N len - 1 - i))) ∧
    array_elems m' arr len = Some (reverse l) ∧
    ((len ≤ 1)%N → m' = m) ∧
    (∀ a, ¬ (arr ≤ a < arr + Z.of_N len) → m' !! a = m !! a).
Proof.
  intros Harr Hl.
  destruct (array_reverse_ptr_mirror m arr len) as (m' & Hrun & Hm');
    [done|by eapply array_elems_valid|].
  assert (∀ i, 0 ≤ i < Z.of_N len →
            m' !! (arr + i) = m !! (arr + (Z.of_N len - 1 - i))) as Hidx.
  { intros i Hi. rewrite Hm', decide_True by lia. f_equal. lia. }
  exists m'. split; [done|]. split; [done|]. split; [|split].
  - pose proof (array_elems_length _ _ _ _ Hl) as Hlen.
    apply array_elems_Some. rewrite length_reverse. split; [done|].
    intros i Hi. rewrite Hidx by lia.
    rewrite reverse_lookup by lia.
    destruct (array_elems_lookup m arr len l (Z.of_N len - 1 - Z.of_nat i))
      as [-> _]; [done|lia|].
    f_equal. lia.
  - intros Hsmall. apply map_eq. intros a. rewrite Hm'.
    case_decide; [|done]. f_equal. lia.
  - intros a Ha. rewrite Hm', decide_False by done. done.
Qed.

(** C5. Reversing a present sequence twice gives back the original: both
    calls return 0, every element is again where it was, and in fact the
    whole store after the second call is the store before the first. *)
Theorem array_reverse_ptr_involutive
  (m : mem) (arr : Z) (len : N) (l : list Z) :
  arr ≠ NULL →
  array_elems m arr len = Some l →
  ∃ m1 m2,
    array_reverse_ptr arr len m = Some (0, m1) ∧
    array_reverse_ptr arr len m1 = Some (0, m2) ∧
    (∀ i, 0 ≤ i < Z.of_N len → m2 !! (arr + i) = m !! (arr + i)) ∧
    array_elems m2 arr len = Some l ∧
    m2 = m.
Proof.
  intros Harr Hl.
  destruct (array_reverse_ptr_mirror m arr len) as (m1 & Hrun1 & Hm1);
    [done|by eapply array_elems_valid|].
  destruct (array_reverse_ptr_mirror m1 arr len) as (m2 & Hrun2 & Hm2);
    [done| |].
  { intros a Ha. rewrite Hm1, decide_True by done.
    eapply array_elems_valid; [done|lia]. }
  assert (m2 = m) as ->.
  { apply map_eq. intros a. rewrite Hm2.
    case_decide; [|by rewrite Hm1, decide_False].
    rewrite Hm1, decide_True by lia. f_equal. lia. }
  exists m1, m. done.
Qed.

(** ** [array_copy_ptr] *)

(** The loop copies the cells [s .. end_ - 1] onto the cells starting at
    [d], provided the two ranges do not overlap, and touches nothing
    else. *)
Lemma copy_loop_transfers (n : nat) (m : mem) (d s end_ : Z) :
  end_ - s ≤ Z.of_nat n →
  (∀ a, s ≤ a < end_ → is_Some (m !! a)) →
  (∀ a, d ≤ a < d + (end_ - s) → is_Some (m !! a)) →
  d + (end_ - s) ≤ s ∨ end_ ≤ d →
  ∃ m', copy_loop m d s end_ = Some m' ∧
    ∀ a, m' !! a = if decide (d ≤ a < d + (end_ - s))
                   then m !! (a - d + s) else m !! a.
Proof.
  revert m d s. induction n as [|n IH]; intros m d s Hn Hsrc Hdst Hsep;
    rewrite copy_loop_step.
  - rewrite decide_False by lia. exists m. split; [done|].
    intros a. rewrite decide_False by lia. done.
  - destruct (decide (s < end_)) as [Hlt|Hge].
    + destruct (Hsrc s) as [v Hv]; [lia|].
      rewrite (copy_cell_Some m d s v) by (try apply Hdst; try done; lia).
      simpl.
      destruct (IH (<[d := v]> m) (d + 1) (s + 1)) as (m' & Hrun & Hm').
      { lia. }
      { intros a Ha. apply insert_is_Some, Hsrc. lia. }
      { intros a Ha. apply insert_is_Some, Hdst. lia. }
      { lia. }
      exists m'. split; [done|]. intros a. rewrite Hm'.
      repeat case_decide; try lia.
      * rewrite lookup_insert_ne by lia. f_equal. lia.
      * assert (a = d) as -> by lia.
        rewrite lookup_insert_eq, <- Hv. f_equal. lia.
      * rewrite lookup_insert_ne by lia. done.
    + exists m. split; [done|].
      intros a. rewrite decide_False by lia. done.
Qed.

(** C2. For present, non-overlapping [dst] and [src] of [len] elements
    each, [array_copy_ptr] returns 0 and afterwards [dst[i] == src[i]] at
    every [i < len]: the destination reads back as the list the source
    held, the source still holds it, and the cells outside the destination
    keep their contents. *)
Theorem array_copy_ptr_copies
  (m : mem) (dst src : Z) (len : N) (ld ls : list Z) :
  dst ≠ NULL → src ≠ NULL →
  array_elems m dst len = Some ld →
  array_elems m src len = Some ls →
  dst + Z.of_N len ≤ src ∨ src + Z.of_N len ≤ dst →
  ∃ m', array_copy_ptr dst src len m = Some (0, m') ∧
    (∀ i, 0 ≤ i < Z.of_N len → m' !! (dst + i) = m' !! (src + i)) ∧
    array_elems m' dst len = Some ls ∧
    array_elems m' src len = Some ls ∧
    (∀ a, ¬ (dst ≤ a < dst + Z.of_N len) → m' !! a = m !! a).
Proof.
  intros Hdst Hsrc Hld Hls Hsep. unfold array_copy_ptr.
  rewrite !bool_decide_eq_false_2 by done. simpl.
  destruct (copy_loop_transfers (N.to_nat len) m dst src (src + Z.of_N len))
    as (m' & -> & Hm').
  { lia. }
  { by apply (array_elems_valid m src len ls). }
  { intros a Ha. apply (array_elems_valid m dst len ld); [done|lia]. }
  { lia. }
  simpl. exists m'. split; [done|].
  assert (∀ a, ¬ (dst ≤ a < dst + Z.of_N len) → m' !! a = m !! a) as Hframe.
  { intros a Ha. rewrite Hm', decide_False by lia. done. }
  assert (∀ i, 0 ≤ i < Z.of_N len → m' !! (dst + i) = m !! (src + i)) as Hcp.
  { intros i Hi. rewrite Hm', decide_True by lia. f_equal. lia. }
  assert (array_elems m' src len = Some ls) as Hsrc'.
  { rewrite <- Hls. apply array_elems_ext. intros i Hi. apply Hframe. lia. }
  split; [|split; [|done]].
  - intros i Hi. rewrite Hcp, Hframe by lia. done.
  - apply array_elems_Some in Hls as [Hlen Hat].
    apply array_elems_Some. split; [done|].
    intros i Hi. rewrite Hcp by lia. by apply Hat.
Qed.

(** ** The guards of [array_copy_ptr] and [array_reverse_ptr] *)

(** C8. With a positive length, [array_copy_ptr] given an absent
    destination or an absent source, and [array_reverse_ptr] given an
    absent sequence, return -1 and leave the store exactly as it was: no
    cell is written, so a destination that is present keeps its
    contents. *)
Theorem absent_reference_rejected (m : mem) (dst src arr : Z) (len : N) :
  (0 < len)%N →
  dst = NULL ∨ src = NULL →
  arr = NULL →
  array_copy_ptr dst src len m = Some (-1, m)
  ∧ array_reverse_ptr arr len m = Some (-1, m).
Proof.
  intros Hlen Habs ->. apply N.ltb_lt in Hlen. split.
  - unfold array_copy_ptr. rewrite Hlen, andb_true_r.
    assert (bool_decide (dst = NULL) || bool_decide (src = NULL) = true)
      as ->; [|done].
    apply orb_true_iff. destruct Habs as [H|H]; [left|right];
      by apply bool_decide_eq_true_2.
  - unfold array_reverse_ptr. rewrite Hlen.
    by rewrite bool_decide_eq_true_2.
Qed.

(** C9. With length 0, [array_copy_ptr] and [array_reverse_ptr] return 0
    and leave the store as it was, for any references, the null pointer
    included: an empty operation on absent references is a success. *)
Theorem empty_operation_succeeds (m : mem) (dst src arr : Z) :
  array_copy_ptr dst src 0 m = Some (0, m)
  ∧ array_reverse_ptr arr 0 m = Some (0, m)
  ∧ array_copy_ptr NULL NULL 0 m = Some (0, m)
  ∧ array_reverse_ptr NULL 0 m = Some (0, m).
Proof.
  assert (∀ d s, array_copy_ptr d s 0 m = Some (0, m)) as Hcopy.
  { intros d s. unfold array_copy_ptr. rewrite andb_false_r. simpl.
    rewrite copy_loop_step, decide_False by lia. done. }
  assert (∀ a, array_reverse_ptr a 0 m = Some (0, m)) as Hrev.
  { intros a. unfold array_reverse_ptr. rewrite andb_false_r. simpl.
    rewrite reverse_loop_step, decide_False by lia. done. }
  auto.
Qed.

(** ** [array_max_ptr] *)

Lemma set_flag_absent (m : mem) (v : Z) : set_flag m NULL v = Some m.
Proof.
  unfold set_flag.
  by rewrite bool_decide_eq_false_2 by (intros H; by apply H).
Qed.

Lemma set_flag_present (m : mem) (ok v : Z) :
  ok ≠ NULL → is_Some (m !! ok) → set_flag m ok v = Some (<[ok := v]> m).
Proof.
  intros Hok Hm. unfold set_flag. rewrite bool_decide_eq_true_2 by done.
  by apply store_Some.
Qed.

(** The scan reads the cells [p .. end_ - 1] and nothing else. *)
Lemma max_loop_ext (n : nat) (m m' : mem) (p end_ maxv : Z) :
  end_ - p ≤ Z.of_nat n →
  (∀ a, p ≤ a < end_ → m' !! a = m !! a) →
  max_loop m' p end_ maxv = max_loop m p end_ maxv.
Proof.
  revert p maxv. induction n as [|n IH]; intros p maxv Hn Hext;
    rewrite (max_loop_step m'), (max_loop_step m).
  - rewrite !decide_False by lia. done.
  - case_decide; [|done]. unfold load. rewrite Hext by lia.
    destruct (m !! p) as [v|]; [simpl|done].
    apply IH; [lia|]. intros a Ha. apply Hext. lia.
Qed.

(** The scan returns a value that is at least the initial one and at least
    every cell scanned, and that is the initial one or one of the cells. *)
Lemma max_loop_bounds (n : nat) (m : mem) (p end_ maxv : Z) :
  end_ - p ≤ Z.of_nat n →
  (∀ a, p ≤ a < end_ → is_Some (m !! a)) →
  ∃ r, max_loop m p end_ maxv = Some r ∧ maxv ≤ r ∧
    (∀ a x, p ≤ a < end_ → m !! a = Some x → x ≤ r) ∧
    (r = maxv ∨ ∃ a, p ≤ a < end_ ∧ m !! a = Some r).
Proof.
  revert p maxv. induction n as [|n IH]; intros p maxv Hn Hvalid;
    rewrite max_loop_step.
  - rewrite decide_False by lia. exists maxv.
    split; [done|]. split; [lia|]. split; [intros; lia|by left].
  - case_decide as Hlt.
    + destruct (Hvalid p) as [v Hv]; [lia|]. unfold load. rewrite Hv. simpl.
      destruct (IH (p + 1) (if v >? maxv then v else maxv))
        as (r & Hrun & Hle & Hub & Hin).
      { lia. }
      { intros a Ha. apply Hvalid. lia. }
      exists r. split; [done|].
      assert (v ≤ r ∧ maxv ≤ r) as [Hv_r Hm_r].
      { destruct (Z.gtb_spec v maxv); lia. }
      split; [done|]. split.
      * intros a x Ha Hx. destruct (decide (a = p)) as [->|Hne].
        -- rewrite Hv in Hx. by injection Hx as <-.
        -- apply (Hub a); [lia|done].
      * destruct Hin as [->|(a & Ha & Hr)].
        -- destruct (Z.gtb_spec v maxv); [right|by left].
           exists p. split; [lia|done].
        -- right. exists a. split; [lia|done].
    + exists maxv. split; [done|]. split; [lia|].
      split; [intros; lia|by left].
Qed.

(** Without a flag slot the call writes nothing. *)
Lemma array_max_ptr_pure
  (int_bits : positive) (m : mem) (arr : Z) (len : N) (r : Z * mem) :
  array_max_ptr int_bits arr len NULL m = Some r → r.2 = m.
Proof.
  unfold array_max_ptr. rewrite !set_flag_absent. simpl.
  destruct (bool_decide (arr = NULL) || (len =? 0)%N).
  - by intros [= <-].
  - destruct (load m arr) as [x|]; [simpl|done].
    destruct (max_loop m (arr + 1) (arr + Z.of_N len) x); [simpl|done].
    by intros [= <-].
Qed.

(** With a flag slot apart from the sequence, the call returns what it
    returns without one, and the only cell it changes is the flag. *)
Lemma array_max_ptr_flag
  (int_bits : positive) (m : mem) (arr : Z) (len : N) (ok : Z) :
  ok ≠ NULL → is_Some (m !! ok) → ¬ (arr ≤ ok < arr + Z.of_N len) →
  array_max_ptr int_bits arr len ok m =
  (λ r : Z * mem,
     (r.1, <[ok := if bool_decide (arr = NULL) || (len =? 0)%N
                   then 0 else 1]> m))
  <$> array_max_ptr int_bits arr len NULL m.
Proof.
  intros Hok Hm Hsep. unfold array_max_ptr.
  rewrite !set_flag_absent, (set_flag_present m ok 0) by done. simpl.
  destruct (bool_decide (arr = NULL) || (len =? 0)%N) eqn:Hinv; [done|].
  apply orb_false_iff in Hinv as [_ Hlen%N.eqb_neq].
  unfold load. rewrite lookup_insert_ne by lia.
  destruct (m !! arr) as [x|]; [simpl|done].
  rewrite (max_loop_ext (N.to_nat len) m); [|lia|].
  2:{ intros a Ha. rewrite lookup_insert_ne by lia. done. }
  destruct (max_loop m (arr + 1) (arr + Z.of_N len) x) as [v|]; [simpl|done].
  rewrite set_flag_present by (try done; by rewrite lookup_insert_eq).
  simpl. by rewrite insert_insert_eq.
Qed.

(** The scan of a present, non-empty sequence, called without a flag. *)
Lemma array_max_ptr_scan
  (int_bits : positive) (m : mem) (arr : Z) (len : N) (l : list Z) :
  arr ≠ NULL → (1 ≤ len)%N →
  array_elems m arr len = Some l →
  ∃ v, array_max_ptr int_bits arr len NULL m = Some (v, m) ∧
    Forall (λ x, x ≤ v) l ∧ v ∈ l.
Proof.
  intros Harr Hlen Hl. unfold array_max_ptr. rewrite !set_flag_absent. simpl.
  rewrite bool_decide_eq_false_2 by done.
  assert ((len =? 0)%N = false) as -> by (apply N.eqb_neq; lia). simpl.
  pose proof (array_elems_valid _ _ _ _ Hl) as Hvalid.
  destruct (Hvalid arr) as [x Hx]; [lia|]. unfold load. rewrite Hx. simpl.
  destruct (max_loop_bounds (N.to_nat len) m (arr + 1) (arr + Z.of_N len) x)
    as (v & -> & Hle & Hub & Hin).
  { lia. }
  { intros a Ha. apply Hvalid. lia. }
  simpl. exists v. split; [done|].
  apply array_elems_Some in Hl as [Hlen' Hat]. split.
  - apply Forall_lookup. intros i y Hy.
    pose proof (lookup_lt_Some _ _ _ Hy) as Hi.
    rewrite <- Hat in Hy by lia.
    destruct (decide (i = 0%nat)) as [->|Hne].
    + rewrite Z.add_0_r, Hx in Hy. injection Hy as <-. done.
    + apply (Hub (arr + Z.of_nat i)); [lia|done].
  - apply list_elem_of_lookup. destruct Hin as [->|(a & Ha & Hr)].
    + exists 0%nat. rewrite <- Hat by lia. by rewrite Z.add_0_r.
    + exists (Z.to_nat (a - arr)). rewrite <- Hat by lia. rewrite <- Hr.
      f_equal. lia.
Qed.

(** C3, as amended. For a present sequence of [len >= 1] elements and a
    flag slot that is absent, or present and not one of the cells of the
    sequence, [array_max_ptr] returns a value that is at least every
    element and equal to one of them, the flag (when present) holds 1
    afterwards, and the sequence is left as it was. *)
Theorem array_max_ptr_finds_max
  (int_bits : positive) (m : mem) (arr : Z) (len : N) (ok : Z) (l : list Z) :
  arr ≠ NULL → (1 ≤ len)%N →
  array_elems m arr len = Some l →
  flag_apart m arr len ok →
  ∃ v m', array_max_ptr int_bits arr len ok m = Some (v, m') ∧
    max_found l ok v m' ∧
    array_elems m' arr len = Some l.
Proof.
  intros Harr Hlen Hl Hflag.
  destruct (array_max_ptr_scan int_bits m arr len l) as (v & Hrun & Hub & Hin);
    [done..|].
  destruct Hflag as [->|[Hm Hsep]].
  - exists v, m. split; [done|]. split; [|done].
    split; [done|]. split; [done|]. intros Hne. by destruct Hne.
  - destruct (decide (ok = NULL)) as [->|Hok].
    { exists v, m. split; [done|]. split; [|done].
      split; [done|]. split; [done|]. intros Hne. by destruct Hne. }
    rewrite array_max_ptr_flag, Hrun by done. simpl.
    rewrite bool_decide_eq_false_2 by done.
    assert ((len =? 0)%N = false) as -> by (apply N.eqb_neq; lia). simpl.
    exists v, (<[ok := 1]> m). split; [done|]. split.
    + split; [done|]. split; [done|]. intros _. apply lookup_insert_eq.
    + rewrite <- Hl. apply array_elems_ext. intros i Hi.
      apply lookup_insert_ne. lia.
Qed.

(** C3, as stated, fails when the flag slot is a cell of the sequence. On
    the one-element array [{5}] with [ok] pointing at that element, the
    call returns 0: the flag write [*ok = 0] replaces the element before
    the scan reads it. The value returned is below the element the
    sequence held before the call (5) and below the one it holds after
    (1), and equal to neither. *)
Lemma max_flag_inside_sequence :
  10 ≠ NULL ∧ (1 ≤ 1)%N ∧
  array_elems mem_5 10 1 = Some [5] ∧
  is_Some (mem_5 !! 10) ∧
  array_max_ptr 32 10 1 10 mem_5 = Some (0, {[ 10 := 1 ]}) ∧
  array_elems {[ 10 := 1 ]} 10 1 = Some [1] ∧
  ¬ (∃ v m', array_max_ptr 32 10 1 10 mem_5 = Some (v, m') ∧
             max_found [5] 10 v m') ∧
  ¬ (∃ v m', array_max_ptr 32 10 1 10 mem_5 = Some (v, m') ∧
             max_found [1] 10 v m').
Proof.
  assert (array_max_ptr 32 10 1 10 mem_5 = Some (0, {[ 10 := 1 ]})) as Hrun
    by (vm_compute; reflexivity).
  split; [done|]. split; [done|]. split; [reflexivity|].
  split; [by eexists|]. split; [done|]. split; [reflexivity|].
  split; intros (v & m' & Hv & Hall & _); rewrite Hrun in Hv;
    injection Hv as <- <-; apply Forall_cons_1 in Hall as [Hle _]; lia.
Qed.

(** C6. On invalid input (an absent sequence, or length 0)
    [array_max_ptr] returns [INT_MIN]; a present flag slot holds 0
    afterwards, being written before the input is examined; no other cell
    changes, and without a flag slot the store is left as it was. *)
Theorem array_max_ptr_invalid
  (int_bits : positive) (m : mem) (arr : Z) (len : N) (ok : Z) :
  arr = NULL ∨ len = 0%N →
  ok = NULL ∨ is_Some (m !! ok) →
  ∃ m', array_max_ptr int_bits arr len ok m = Some (INT_MIN int_bits, m') ∧
    (ok ≠ NULL → m' !! ok = Some 0) ∧
    (ok = NULL → m' = m) ∧
    (∀ a, a ≠ ok → m' !! a = m !! a).
Proof.
  intros Hinv Hflag. unfold array_max_ptr.
  assert (bool_decide (arr = NULL) || (len =? 0)%N = true) as Hguard.
  { apply orb_true_iff. destruct Hinv as [H|H].
    - left. by apply bool_decide_eq_true_2.
    - right. by apply N.eqb_eq. }
  destruct (decide (ok = NULL)) as [->|Hok].
  - rewrite set_flag_absent. simpl. rewrite Hguard.
    exists m. split; [done|]. split; [intros Hne; by destruct Hne|done].
  - destruct Hflag as [?|Hm]; [done|].
    rewrite set_flag_present by done. simpl. rewrite Hguard.
    exists (<[ok := 0]> m). split; [done|]. split; [|split].
    + intros _. apply lookup_insert_eq.
    + done.
    + intros a Ha. by apply lookup_insert_ne.
Qed.

(** C10, as amended. When the flag slot is absent, or present and not one
    of the cells of the sequence, the value returned by [array_max_ptr]
    (or the absence of a result) is the same as in the run without a flag
    slot, the call changes no cell of the sequence, indeed no cell other
    than the flag, and the run without a flag slot changes nothing. *)
Theorem array_max_ptr_flag_independent
  (int_bits : positive) (m : mem) (arr : Z) (len : N) (ok : Z) :
  flag_apart m arr len ok →
  fst <$> array_max_ptr int_bits arr len ok m
  = fst <$> array_max_ptr int_bits arr len NULL m
  ∧ (∀ v m', array_max_ptr int_bits arr len ok m = Some (v, m') →
       (∀ i, 0 ≤ i < Z.of_N len → m' !! (arr + i) = m !! (arr + i))
       ∧ (∀ a, a ≠ ok → m' !! a = m !! a))
  ∧ (∀ v m', array_max_ptr int_bits arr len NULL m = Some (v, m') → m' = m).
Proof.
  intros Hflag.
  assert (∀ v m', array_max_ptr int_bits arr len NULL m = Some (v, m') →
            m' = m) as Hpure.
  { intros v m' Hrun. by apply array_max_ptr_pure in Hrun. }
  split; [|split; [|done]].
  - destruct Hflag as [->|[Hm Hsep]]; [done|].
    destruct (decide (ok = NULL)) as [->|Hok]; [done|].
    rewrite array_max_ptr_flag by done.
    by destruct (array_max_ptr int_bits arr len NULL m).
  - intros v m' Hrun. destruct Hflag as [->|[Hm Hsep]].
    { apply Hpure in Hrun as ->. done. }
    destruct (decide (ok = NULL)) as [->|Hok].
    { apply Hpure in Hrun as ->. done. }
    rewrite array_max_ptr_flag in Hrun by done.
    destruct (array_max_ptr int_bits arr len NULL m) as [r|]; [|done].
    injection Hrun as _ <-. split.
    + intros i Hi. apply lookup_insert_ne. lia.
    + intros a Ha. by apply lookup_insert_ne.
Qed.

(** C10, as stated, fails when the flag slot is a cell of the sequence. On
    the one-element array [{5}] the call returns 5 without a flag slot and
    0 with [ok] pointing at the element, and in the second run the element
    is overwritten (it holds 1 afterwards). *)
Lemma max_depends_on_flag_inside_sequence :
  array_max_ptr 32 10 1 NULL mem_5 = Some (5, mem_5) ∧
  array_max_ptr 32 10 1 10 mem_5 = Some (0, {[ 10 := 1 ]}) ∧
  fst <$> array_max_ptr 32 10 1 10 mem_5
  ≠ fst <$> array_max_ptr 32 10 1 NULL mem_5 ∧
  mem_5 !! 10 = Some 5 ∧
  (∃ v m', array_max_ptr 32 10 1 10 mem_5 = Some (v, m') ∧
           m' !! 10 ≠ mem_5 !! 10).
Proof.
  assert (array_max_ptr 32 10 1 NULL mem_5 = Some (5, mem_5)) as Hnull
    by (vm_compute; reflexivity).
  assert (array_max_ptr 32 10 1 10 mem_5 = Some (0, {[ 10 := 1 ]})) as Hrun
    by (vm_compute; reflexivity).
  split; [done|]. split; [done|]. split; [|split; [reflexivity|]].
  - rewrite Hnull, Hrun. simpl. intros [=].
  - exists 0, {[ 10 := 1 ]}. split; [done|]. vm_compute. intros [=].
Qed.

(** ** The theorems at concrete inputs *)

Lemma array_sum_ptr_wraps_witness :
  10 ≠ NULL ∧
  array_elems mem_overflow 10 2 = Some [2147483647; 1] ∧
  (array_sum_ptr 32 10 2 mem_overflow
   = Some (int_wrap 32 (sum_Z [2147483647; 1]))
   ∧ INT_MIN 32 ≤ int_wrap 32 (sum_Z [2147483647; 1]) ≤ INT_MAX 32
   ∧ int_wrap 32 (sum_Z [2147483647; 1]) mod int_modulus 32
     = sum_Z [2147483647; 1] mod int_modulus 32).
Proof.
  split; [done|]. split; [reflexivity|].
  apply (array_sum_ptr_wraps 32 mem_overflow 10 2 [2147483647; 1]);
    [done|reflexivity].
Defined.

Lemma array_sum_ptr_degenerate_witness :
  ((NULL = NULL ∧ (0 < 3)%N) ∨ 3%N = 0%N) ∧
  array_sum_ptr 32 NULL 3 ∅ = Some 0.
Proof.
  assert ((NULL = NULL ∧ (0 < 3)%N) ∨ 3%N = 0%N) as H
    by (left; split; [reflexivity|lia]).
  split; [exact H|]. apply (array_sum_ptr_degenerate 32 NULL 3 ∅ H).
Defined.

Lemma array_reverse_ptr_reverses_witness :
  10 ≠ NULL ∧
  array_elems mem_12345 10 5 = Some [1; 2; 3; 4; 5] ∧
  ∃ m', array_reverse_ptr 10 5 mem_12345 = Some (0, m') ∧
    (∀ i, 0 ≤ i < Z.of_N 5 →
       m' !! (10 + i) = mem_12345 !! (10 + (Z.of_N 5 - 1 - i))) ∧
    array_elems m' 10 5 = Some (reverse [1; 2; 3; 4; 5]) ∧
    ((5 ≤ 1)%N → m' = mem_12345) ∧
    (∀ a, ¬ (10 ≤ a < 10 + Z.of_N 5) → m' !! a = mem_12345 !! a).
Proof.
  split; [done|]. split; [reflexivity|].
  apply (array_reverse_ptr_reverses mem_12345 10 5 [1; 2; 3; 4; 5]);
    [done|reflexivity].
Defined.

Lemma array_reverse_ptr_involutive_witness :
  10 ≠ NULL ∧
  array_elems mem_12345 10 5 = Some [1; 2; 3; 4; 5] ∧
  ∃ m1 m2,
    array_reverse_ptr 10 5 mem_12345 = Some (0, m1) ∧
    array_reverse_ptr 10 5 m1 = Some (0, m2) ∧
    (∀ i, 0 ≤ i < Z.of_N 5 → m2 !! (10 + i) = mem_12345 !! (10 + i)) ∧
    array_elems m2 10 5 = Some [1; 2; 3; 4; 5] ∧
    m2 = mem_12345.
Proof.
  split; [done|]. split; [reflexivity|].
  apply (array_reverse_ptr_involutive mem_12345 10 5 [1; 2; 3; 4; 5]);
    [done|reflexivity].
Defined.

Lemma array_copy_ptr_copies_witness :
  30 ≠ NULL ∧ 20 ≠ NULL ∧
  array_elems mem_copy 30 3 = Some [0; 0; 0] ∧
  array_elems mem_copy 20 3 = Some [7; 8; 9] ∧
  (30 + Z.of_N 3 ≤ 20 ∨ 20 + Z.of_N 3 ≤ 30) ∧
  ∃ m', array_copy_ptr 30 20 3 mem_copy = Some (0, m') ∧
    (∀ i, 0 ≤ i < Z.of_N 3 → m' !! (30 + i) = m' !! (20 + i)) ∧
    array_elems m' 30 3 = Some [7; 8; 9] ∧
    array_elems m' 20 3 = Some [7; 8; 9] ∧
    (∀ a, ¬ (30 ≤ a < 30 + Z.of_N 3) → m' !! a = mem_copy !! a).
Proof.
  split; [done|]. split; [done|]. split; [reflexivity|].
  split; [reflexivity|]. split; [lia|].
  apply (array_copy_ptr_copies mem_copy 30 20 3 [0; 0; 0] [7; 8; 9]);
    [done|done|reflexivity|reflexivity|lia].
Defined.

Lemma array_max_ptr_finds_max_witness :
  10 ≠ NULL ∧ (1 ≤ 4)%N ∧
  array_elems mem_max 10 4 = Some [3; -1; 7; 2] ∧
  flag_apart mem_max 10 4 40 ∧
  ∃ v m', array_max_ptr 32 10 4 40 mem_max = Some (v, m') ∧
    max_found [3; -1; 7; 2] 40 v m' ∧
    array_elems m' 10 4 = Some [3; -1; 7; 2].
Proof.
  assert (flag_apart mem_max 10 4 40) as Hflag
    by (right; split; [by eexists|lia]).
  split; [done|]. split; [lia|]. split; [reflexivity|].
  split; [exact Hflag|].
  apply (array_max_ptr_finds_max 32 mem_max 10 4 40 [3; -1; 7; 2]);
    [done|lia|reflexivity|exact Hflag].
Defined.

Lemma array_max_ptr_invalid_witness :
  (NULL = NULL ∨ 0%N = 0%N) ∧
  (40 = NULL ∨ is_Some (mem_max !! 40)) ∧
  ∃ m', array_max_ptr 32 NULL 0 40 mem_max = Some (INT_MIN 32, m') ∧
    (40 ≠ NULL → m' !! 40 = Some 0) ∧
    (40 = NULL → m' = mem_max) ∧
    (∀ a, a ≠ 40 → m' !! a = mem_max !! a).
Proof.
  assert (40 = NULL ∨ is_Some (mem_max !! 40)) as Hflag
    by (right; by eexists).
  split; [by left|]. split; [exact Hflag|].
  apply (array_max_ptr_invalid 32 mem_max NULL 0 40); [by left|exact Hflag].
Defined.

Lemma absent_reference_rejected_witness :
  (0 < 3)%N ∧ (30 = NULL ∨ NULL = NULL) ∧ NULL = NULL ∧
  (array_copy_ptr 30 NULL 3 mem_copy = Some (-1, mem_copy)
   ∧ array_reverse_ptr NULL 3 mem_copy = Some (-1, mem_copy)).
Proof.
  split; [lia|]. split; [by right|]. split; [reflexivity|].
  apply (absent_reference_rejected mem_copy 30 NULL NULL 3);
    [lia|by right|reflexivity].
Defined.

Lemma array_max_ptr_flag_independent_witness :
  flag_apart mem_max 10 4 40 ∧
  (fst <$> array_max_ptr 32 10 4 40 mem_max
   = fst <$> array_max_ptr 32 10 4 NULL mem_max
   ∧ (∀ v m', array_max_ptr 32 10 4 40 mem_max = Some (v, m') →
        (∀ i, 0 ≤ i < Z.of_N 4 → m' !! (10 + i) = mem_max !! (10 + i))
        ∧ (∀ a, a ≠ 40 → m' !! a = mem_max !! a))
   ∧ (∀ v m', array_max_ptr 32 10 4 NULL mem_max = Some (v, m') →
        m' = mem_max)).
Proof.
  assert (flag_apart mem_max 10 4 40) as Hflag
    by (right; split; [by eexists|lia]).
  split; [exact Hflag|].
  apply (array_max_ptr_flag_independent 32 mem_max 10 4 40 Hflag).
Defined.

(** * Further properties of the four functions *)

(** ** [array_copy_ptr] on overlapping ranges *)

(** The ascending transfer is safe whenever the destination does not start
    above the source: each source cell is read before the destination
    cursor reaches it. *)
Lemma copy_loop_descending_safe (n : nat) (m : mem) (d s end_ : Z) :
  end_ - s ≤ Z.of_nat n →
  d ≤ s →
  (∀ a, s ≤ a < end_ → is_Some (m !! a)) →
  (∀ a, d ≤ a < d + (end_ - s) → is_Some (m !! a)) →
  ∃ m', copy_loop m d s end_ = Some m' ∧
    ∀ a, m' !! a = if decide (d ≤ a < d + (end_ - s))
                   then m !! (a - d + s) else m !! a.
Proof.
  revert m d s. induction n as [|n IH]; intros m d s Hn Hds Hvalid Hvalid';
    rewrite copy_loop_step.
  - rewrite decide_False by lia. exists m. split; [done|].
    intros a. rewrite decide_False by lia. done.
  - destruct (decide (s < end_)) as [Hlt|Hge].
    + destruct (Hvalid s) as [v Hv]; [lia|].
      rewrite (copy_cell_Some m d s v) by (try apply Hvalid'; try done; lia).
      simpl.
      destruct (IH (<[d := v]> m) (d + 1) (s + 1)) as (m' & Hrun & Hm').
      { lia. }
      { lia. }
      { intros a Ha. apply insert_is_Some, Hvalid. lia. }
      { intros a Ha. apply insert_is_Some, Hvalid'. lia. }
      exists m'. split; [done|]. intros a. rewrite Hm'.
      repeat case_decide; try lia.
      * rewrite lookup_insert_ne by lia. f_equal. lia.
      * assert (a = d) as -> by lia.
        rewrite lookup_insert_eq, <- Hv. f_equal. lia.
      * rewrite lookup_insert_ne by lia. done.
    + exists m. split; [done|].
      intros a. rewrite decide_False by lia. done.
Qed.

(** When the destination starts [k > 0] cells above the source, the
    ascending transfer re-reads cells it has already written: destination
    cell [j] receives the original source cell [j mod k]. *)
Lemma copy_loop_ascending_repeats (n : nat) (m : mem) (d s end_ k : Z) :
  end_ - s ≤ Z.of_nat n →
  0 < k → d = s + k →
  (∀ a, s ≤ a < end_ → is_Some (m !! a)) →
  (∀ a, d ≤ a < d + (end_ - s) → is_Some (m !! a)) →
  ∃ m', copy_loop m d s end_ = Some m' ∧
    ∀ a, m' !! a = if decide (d ≤ a < d + (end_ - s))
                   then m !! (s + (a - d) mod k) else m !! a.
Proof.
  revert m d s. induction n as [|n IH]; intros m d s Hn Hk Hd Hvalid Hvalid';
    rewrite copy_loop_step.
  - rewrite decide_False by lia. exists m. split; [done|].
    intros a. rewrite decide_False by lia. done.
  - destruct (decide (s < end_)) as [Hlt|Hge].
    + destruct (Hvalid s) as [v Hv]; [lia|].
      rewrite (copy_cell_Some m d s v) by (try apply Hvalid'; try done; lia).
      simpl.
      destruct (IH (<[d := v]> m) (d + 1) (s + 1)) as (m' & Hrun & Hm').
      { lia. }
      { done. }
      { lia. }
      { intros a Ha. apply insert_is_Some, Hvalid. lia. }
      { intros a Ha. apply insert_is_Some, Hvalid'. lia. }
      exists m'. split; [done|]. intros a. rewrite Hm'.
      repeat case_decide; try lia.
      * pose proof (Z.mod_pos_bound (a - (d + 1)) k Hk) as Hr.
        pose proof (Z.div_mod (a - (d + 1)) k ltac:(lia)) as Hq.
        destruct (decide ((a - (d + 1)) mod k = k - 1)) as [Hlast|Hmid].
        -- replace (s + 1 + (a - (d + 1)) mod k) with d by lia.
           rewrite lookup_insert_eq, <- Hv. f_equal.
           assert ((a - d) mod k = 0) as ->; [|lia].
           symmetry. apply (Z.mod_unique _ _ ((a - (d + 1)) / k + 1)); lia.
        -- rewrite lookup_insert_ne by lia. f_equal.
           assert ((a - d) mod k = (a - (d + 1)) mod k + 1) as ->; [|lia].
           symmetry. apply (Z.mod_unique _ _ ((a - (d + 1)) / k)); lia.
      * assert (a = d) as -> by lia.
        rewrite lookup_insert_eq, <- Hv. f_equal.
        rewrite Z.sub_diag, Z.mod_0_l by lia. lia.
      * rewrite lookup_insert_ne by lia. done.
    + exists m. split; [done|].
      intros a. rewrite decide_False by lia. done.
Qed.

(** X1. [array_copy_ptr] is safe on overlapping ranges as long as the
    destination does not start above the source: for present [dst <= src]
    of [len] elements each, overlapping or not, the call returns 0, the
    destination reads back as the list the source held before the call,
    and no cell outside the destination changes. *)
Theorem array_copy_ptr_downward_overlap
  (m : mem) (dst src : Z) (len : N) (ld ls : list Z) :
  dst ≠ NULL → src ≠ NULL →
  array_elems m dst len = Some ld →
  array_elems m src len = Some ls →
  dst ≤ src →
  ∃ m', array_copy_ptr dst src len m = Some (0, m') ∧
    array_elems m' dst len = Some ls ∧
    (∀ a, ¬ (dst ≤ a < dst + Z.of_N len) → m' !! a = m !! a).
Proof.
  intros Hdst Hsrc Hld Hls Hle. unfold array_copy_ptr.
  rewrite !bool_decide_eq_false_2 by done. simpl.
  destruct (copy_loop_descending_safe (N.to_nat len) m dst src
              (src + Z.of_N len)) as (m' & -> & Hm').
  { lia. }
  { done. }
  { by apply (array_elems_valid m src len ls). }
  { intros a Ha. apply (array_elems_valid m dst len ld); [done|lia]. }
  simpl. exists m'. split; [done|]. split.
  - apply array_elems_Some in Hls as [Hlen Hat].
    apply array_elems_Some. split; [done|].
    intros i Hi. rewrite Hm', decide_True by lia. rewrite <- Hat by done.
    f_equal. lia.
  - intros a Ha. rewrite Hm', decide_False by lia. done.
Qed.

(** X2. When the destination starts above the source, at distance
    [k = dst - src], [array_copy_ptr] returns 0 and leaves in destination
    cell [i] the original source cell [i mod k]: the first [k] source
    elements repeated. For [k >= len] (no overlap) that is the plain copy;
    for [k < len] the tail of the source is lost. *)
Theorem array_copy_ptr_upward_overlap
  (m : mem) (dst src : Z) (len : N) (ld ls : list Z) :
  dst ≠ NULL → src ≠ NULL →
  array_elems m dst len = Some ld →
  array_elems m src len = Some ls →
  src < dst →
  ∃ m', array_copy_ptr dst src len m = Some (0, m') ∧
    (∀ i, 0 ≤ i < Z.of_N len →
       m' !! (dst + i) = m !! (src + i mod (dst - src))) ∧
    (∀ a, ¬ (dst ≤ a < dst + Z.of_N len) → m' !! a = m !! a).
Proof.
  intros Hdst Hsrc Hld Hls Hlt. unfold array_copy_ptr.
  rewrite !bool_decide_eq_false_2 by done. simpl.
  destruct (copy_loop_ascending_repeats (N.to_nat len) m dst src
              (src + Z.of_N len) (dst - src)) as (m' & -> & Hm').
  { lia. }
  { lia. }
  { lia. }
  { by apply (array_elems_valid m src len ls). }
  { intros a Ha. apply (array_elems_valid m dst len ld); [done|lia]. }
  simpl. exists m'. split; [done|]. split.
  - intros i Hi. rewrite Hm', decide_True by lia. do 3 f_equal. lia.
  - intros a Ha. rewrite Hm', decide_False by lia. done.
Qed.

(** ** The functions on the list a sequence holds *)

Lemma sum_Z_app (l k : list Z) : sum_Z (l ++ k) = sum_Z l + sum_Z k.
Proof. induction l as [|x l IH]; simpl; [done|]. rewrite IH. lia. Qed.

Lemma sum_Z_Permutation (l k : list Z) : l ≡ₚ k → sum_Z l = sum_Z k.
Proof. induction 1; simpl; lia. Qed.

(** An upper bound of a list that is one of its members is determined by
    the members, whatever their order. *)
Lemma upper_member_unique (l k : list Z) (v w : Z) :
  l ≡ₚ k →
  Forall (λ x, x ≤ v) l → v ∈ l →
  Forall (λ x, x ≤ w) k → w ∈ k →
  v = w.
Proof.
  intros Hperm Hv Hvin Hw Hwin.
  rewrite Forall_forall in Hv, Hw.
  assert (w ≤ v) by (apply Hv; by rewrite Hperm).
  assert (v ≤ w) by (apply Hw; by rewrite <- Hperm).
  lia.
Qed.

(** The prefix and the rest of a present sequence are present sequences. *)
Lemma array_elems_split (m : mem) (arr : Z) (n k : N) (l : list Z) :
  array_elems m arr (n + k) = Some l →
  array_elems m arr n = Some (take (N.to_nat n) l)
  ∧ array_elems m (arr + Z.of_N n) k = Some (drop (N.to_nat n) l).
Proof.
  intros [Hlen Hat]%array_elems_Some. split; apply array_elems_Some.
  - split; [rewrite length_take; lia|]. intros i Hi.
    rewrite lookup_take_lt by done. apply Hat. lia.
  - split; [rewrite length_drop; lia|]. intros i Hi.
    rewrite lookup_drop, <- Hat by lia. f_equal. lia.
Qed.

Lemma array_reverse_ptr_elems (m : mem) (arr : Z) (len : N) (l : list Z) :
  arr ≠ NULL →
  array_elems m arr len = Some l →
  ∃ m', array_reverse_ptr arr len m = Some (0, m') ∧
    array_elems m' arr len = Some (reverse l) ∧
    (∀ a, ¬ (arr ≤ a < arr + Z.of_N len) → m' !! a = m !! a).
Proof.
  intros Harr Hl.
  destruct (array_reverse_ptr_mirror m arr len) as (m' & Hrun & Hm');
    [done|by eapply array_elems_valid|].
  exists m'. split; [done|]. split.
  - pose proof (array_elems_length _ _ _ _ Hl) as Hlen.
    apply array_elems_Some. rewrite length_reverse. split; [done|].
    intros i Hi. rewrite Hm', decide_True by lia.
    replace (arr + (arr + Z.of_N len) - 1 - (arr + Z.of_nat i))
      with (arr + (Z.of_N len - 1 - Z.of_nat i)) by lia.
    rewrite reverse_lookup by lia.
    destruct (array_elems_lookup m arr len l (Z.of_N len - 1 - Z.of_nat i))
      as [-> _]; [done|lia|].
    f_equal. lia.
  - intros a Ha. rewrite Hm', decide_False by done. done.
Qed.

Lemma array_copy_ptr_elems
  (m : mem) (dst src : Z) (len : N) (ld ls : list Z) :
  dst ≠ NULL → src ≠ NULL →
  array_elems m dst len = Some ld →
  array_elems m src len = Some ls →
  dst + Z.of_N len ≤ src ∨ src + Z.of_N len ≤ dst →
  ∃ m', array_copy_ptr dst src len m = Some (0, m') ∧
    array_elems m' dst len = Some ls ∧
    (∀ a, ¬ (dst ≤ a < dst + Z.of_N len) → m' !! a = m !! a).
Proof.
  intros Hdst Hsrc Hld Hls Hsep. unfold array_copy_ptr.
  rewrite !bool_decide_eq_false_2 by done. simpl.
  destruct (copy_loop_transfers (N.to_nat len) m dst src (src + Z.of_N len))
    as (m' & -> & Hm').
  { lia. }
  { by apply (array_elems_valid m src len ls). }
  { intros a Ha. apply (array_elems_valid m dst len ld); [done|lia]. }
  { lia. }
  simpl. exists m'. split; [done|]. split.
  - apply array_elems_Some in Hls as [Hlen Hat].
    apply array_elems_Some. split; [done|].
    intros i Hi. rewrite Hm', decide_True by lia. rewrite <- Hat by done.
    f_equal. lia.
  - intros a Ha. rewrite Hm', decide_False by lia. done.
Qed.

Section OnLists.

Variable int_bits : positive.

Lemma array_sum_ptr_elems (m : mem) (arr : Z) (len : N) (l : list Z) :
  arr ≠ NULL →
  array_elems m arr len = Some l →
  array_sum_ptr int_bits arr len m = Some (int_wrap int_bits (sum_Z l)).
Proof.
  intros Harr Hl.
  unfold array_sum_ptr. rewrite bool_decide_eq_false_2 by done. simpl.
  apply array_elems_Some in Hl as [Hlen Hat].
  replace (Z.of_N len) with (Z.of_nat (length l)) by lia.
  rewrite sum_loop_foldl by (intros i Hi; apply Hat; lia).
  f_equal. apply (foldl_int_add int_bits l 0), zero_is_int.
Qed.

Lemma array_max_ptr_apart
  (m : mem) (arr : Z) (len : N) (ok : Z) (l : list Z) :
  arr ≠ NULL → (1 ≤ len)%N →
  array_elems m arr len = Some l →
  flag_apart m arr len ok →
  ∃ v, array_max_ptr int_bits arr len ok m
       = Some (v, if decide (ok = NULL) then m else <[ok := 1]> m) ∧
    Forall (λ x, x ≤ v) l ∧ v ∈ l.
Proof.
  intros Harr Hlen Hl Hflag.
  destruct (array_max_ptr_scan int_bits m arr len l) as (v & Hrun & Hub & Hin);
    [done..|].
  exists v. split; [|done].
  destruct (decide (ok = NULL)) as [->|Hok]; [done|].
  destruct Hflag as [?|[Hm Hsep]]; [done|].
  rewrite array_max_ptr_flag, Hrun by done. simpl.
  rewrite bool_decide_eq_false_2 by done.
  assert ((len =? 0)%N = false) as -> by (apply N.eqb_neq; lia). done.
Qed.

(** X3. Reversing a present sequence does not change what
    [array_sum_ptr] returns for it: the wrapped sum does not depend on the
    order of traversal. *)
Theorem sum_after_reverse (m : mem) (arr : Z) (len : N) (l : list Z) :
  arr ≠ NULL →
  array_elems m arr len = Some l →
  ∃ m' s, array_reverse_ptr arr len m = Some (0, m') ∧
    array_sum_ptr int_bits arr len m = Some s ∧
    array_sum_ptr int_bits arr len m' = Some s.
Proof.
  intros Harr Hl.
  destruct (array_reverse_ptr_elems m arr len l) as (m' & Hrun & Hl' & _);
    [done..|].
  exists m', (int_wrap int_bits (sum_Z l)). split; [done|]. split.
  - by apply array_sum_ptr_elems.
  - rewrite (array_sum_ptr_elems m' arr len (reverse l)) by done.
    by rewrite (sum_Z_Permutation _ _ (reverse_Permutation l)).
Qed.

(** X4. Reversing a present, non-empty sequence does not change the value
    [array_max_ptr] returns for it, for a flag slot that is absent or lies
    outside the sequence. *)
Theorem max_after_reverse
  (m : mem) (arr : Z) (len : N) (ok : Z) (l : list Z) :
  arr ≠ NULL → (1 ≤ len)%N →
  array_elems m arr len = Some l →
  flag_apart m arr len ok →
  ∃ m' v m1 m2, array_reverse_ptr arr len m = Some (0, m') ∧
    array_max_ptr int_bits arr len ok m = Some (v, m1) ∧
    array_max_ptr int_bits arr len ok m' = Some (v, m2).
Proof.
  intros Harr Hlen Hl Hflag.
  destruct (array_reverse_ptr_elems m arr len l) as (m' & Hrun & Hl' & Hfr);
    [done..|].
  destruct (array_max_ptr_apart m arr len ok l) as (v & Hv & Hub & Hin);
    [done..|].
  destruct (array_max_ptr_apart m' arr len ok (reverse l))
    as (w & Hw & Hub' & Hin'); [done..| |].
  { destruct Hflag as [?|[Hm Hsep]]; [by left|right].
    split; [|done]. by rewrite Hfr. }
  assert (v = w) as <-.
  { apply (upper_member_unique l (reverse l)); try done.
    symmetry. apply reverse_Permutation. }
  eauto 10.
Qed.

(** X5. After a copy between present, non-overlapping sequences,
    [array_sum_ptr] on the destination returns what it returns on the
    source. *)
Theorem sum_after_copy
  (m : mem) (dst src : Z) (len : N) (ld ls : list Z) :
  dst ≠ NULL → src ≠ NULL →
  array_elems m dst len = Some ld →
  array_elems m src len = Some ls →
  dst + Z.of_N len ≤ src ∨ src + Z.of_N len ≤ dst →
  ∃ m' s, array_copy_ptr dst src len m = Some (0, m') ∧
    array_sum_ptr int_bits src len m = Some s ∧
    array_sum_ptr int_bits dst len m' = Some s.
Proof.
  intros Hdst Hsrc Hld Hls Hsep.
  destruct (array_copy_ptr_elems m dst src len ld ls) as (m' & Hrun & Hl' & _);
    [done..|].
  exists m', (int_wrap int_bits (sum_Z ls)).
  split; [done|]. split; by apply array_sum_ptr_elems.
Qed.


(** X7. When the exact sum of a present sequence is representable as an
    [int], [array_sum_ptr] returns exactly that sum, even if partial sums
    along the way are not representable. *)
Theorem array_sum_ptr_exact (m : mem) (arr : Z) (len : N) (l : list Z) :
  arr ≠ NULL →
  array_elems m arr len = Some l →
  INT_MIN int_bits ≤ sum_Z l ≤ INT_MAX int_bits →
  array_sum_ptr int_bits arr len m = Some (sum_Z l).
Proof.
  intros Harr Hl Hfit. rewrite (array_sum_ptr_elems m arr len l) by done.
  f_equal. by apply int_wrap_id.
Qed.

(** X8. The sum of a present sequence of [n + k] elements is the [int]
    addition of the sum of its first [n] elements and the sum of the
    remaining [k]. *)
Theorem array_sum_ptr_split (m : mem) (arr : Z) (n k : N) (l : list Z) :
  arr ≠ NULL → arr + Z.of_N n ≠ NULL →
  array_elems m arr (n + k) = Some l →
  ∃ a b, array_sum_ptr int_bits arr n m = Some a ∧
    array_sum_ptr int_bits (arr + Z.of_N n) k m = Some b ∧
    array_sum_ptr int_bits arr (n + k) m = Some (int_add int_bits a b).
Proof.
  intros Harr Hmid Hl.
  destruct (array_elems_split m arr n k l Hl) as [Hpre Hrest].
  exists (int_wrap int_bits (sum_Z (take (N.to_nat n) l))),
         (int_wrap int_bits (sum_Z (drop (N.to_nat n) l))).
  split; [by apply array_sum_ptr_elems|].
  split; [by apply array_sum_ptr_elems|].
  rewrite (array_sum_ptr_elems m arr (n + k) l) by done. f_equal.
  assert (sum_Z l = sum_Z (take (N.to_nat n) l) + sum_Z (drop (N.to_nat n) l))
    as -> by (by rewrite <- sum_Z_app, take_drop).
  unfold int_add. rewrite int_wrap_add_l.
  rewrite (Z.add_comm (sum_Z (take _ _)) (int_wrap _ _)), int_wrap_add_l.
  f_equal. lia.
Qed.

End OnLists.

(** ** What a call can read and write *)

Lemma sum_loop_ext
  (int_bits : positive) (n : nat) (m m' : mem) (p end_ sum : Z) :
  end_ - p ≤ Z.of_nat n →
  (∀ a, p ≤ a < end_ → m' !! a = m !! a) →
  sum_loop int_bits m' p end_ sum = sum_loop int_bits m p end_ sum.
Proof.
  revert p sum. induction n as [|n IH]; intros p sum Hn Hext;
    rewrite (sum_loop_step int_bits m'), (sum_loop_step int_bits m).
  - rewrite !decide_False by lia. done.
  - case_decide; [|done]. unfold load. rewrite Hext by lia.
    destruct (m !! p) as [v|]; [simpl|done].
    apply IH; [lia|]. intros a Ha. apply Hext. lia.
Qed.

(** X9. [array_sum_ptr], and [array_max_ptr] called without a flag slot,
    read the [len] cells of the sequence and nothing else: two stores that
    agree on those cells give the same outcome, a result or none. *)
Theorem readers_depend_on_sequence_only
  (int_bits : positive) (m m' : mem) (arr : Z) (len : N) :
  (∀ i, 0 ≤ i < Z.of_N len → m' !! (arr + i) = m !! (arr + i)) →
  array_sum_ptr int_bits arr len m' = array_sum_ptr int_bits arr len m
  ∧ fst <$> array_max_ptr int_bits arr len NULL m'
    = fst <$> array_max_ptr int_bits arr len NULL m.
Proof.
  intros Hext.
  assert (∀ a, arr ≤ a < arr + Z.of_N len → m' !! a = m !! a) as Hcell.
  { intros a Ha. replace a with (arr + (a - arr)) by lia. apply Hext. lia. }
  split.
  - unfold array_sum_ptr. case_match; [done|]. simpl.
    by apply (sum_loop_ext int_bits (N.to_nat len)); [lia|].
  - unfold array_max_ptr. rewrite !set_flag_absent. simpl.
    destruct (bool_decide (arr = NULL) || (len =? 0)%N) eqn:Hinv; [done|].
    apply orb_false_iff in Hinv as [_ Hlen%N.eqb_neq].
    unfold load. rewrite Hcell by lia.
    destruct (m !! arr) as [x|]; [simpl|done].
    rewrite (max_loop_ext (N.to_nat len) m m'); [|lia|].
    2:{ intros a Ha. apply Hcell. lia. }
    by destruct (max_loop m (arr + 1) (arr + Z.of_N len) x).
Qed.

Lemma swap_cells_inv (m m1 : mem) (p q : Z) :
  swap_cells m p q = Some m1 →
  ∃ x y, m !! p = Some x ∧ m !! q = Some y ∧
         m1 = <[q := x]> (<[p := y]> m).
Proof.
  intros Hswap.
  destruct (m !! p) as [x|] eqn:Hp;
    [|by unfold swap_cells, load in Hswap; rewrite Hp in Hswap].
  destruct (m !! q) as [y|] eqn:Hq;
    [|by unfold swap_cells, load in Hswap; rewrite Hp, Hq in Hswap].
  rewrite (swap_cells_Some m p q x y) in Hswap by done.
  injection Hswap as <-. eauto.
Qed.

Lemma copy_cell_inv (m m1 : mem) (d s : Z) :
  copy_cell m d s = Some m1 →
  ∃ v, m !! s = Some v ∧ is_Some (m !! d) ∧ m1 = <[d := v]> m.
Proof.
  intros Hcopy.
  destruct (m !! s) as [v|] eqn:Hs;
    [|by unfold copy_cell, load in Hcopy; rewrite Hs in Hcopy].
  destruct (m !! d) as [w|] eqn:Hd;
    [|by unfold copy_cell, load, store in Hcopy; rewrite Hs in Hcopy;
         simpl in Hcopy; rewrite Hd in Hcopy].
  rewrite (copy_cell_Some m d s v) in Hcopy by eauto.
  injection Hcopy as <-. eauto.
Qed.

Lemma set_flag_inv (m m1 : mem) (ok v : Z) :
  set_flag m ok v = Some m1 →
  (ok = NULL ∧ m1 = m) ∨
  (ok ≠ NULL ∧ is_Some (m !! ok) ∧ m1 = <[ok := v]> m).
Proof.
  unfold set_flag, store. case_bool_decide as Hok.
  - destruct (m !! ok) as [w|] eqn:Hm; [|done].
    intros [= <-]. right. eauto.
  - intros [= <-]. left. split; [|done].
    by destruct (decide (ok = NULL)).
Qed.

(** Every run of the reversal loop that completes keeps the set of cells,
    leaves the cells outside its range alone, and only moves values. *)
Lemma reverse_loop_envelope (n : nat) (m m' : mem) (left_ right_ : Z) :
  right_ - left_ ≤ Z.of_nat n →
  reverse_loop m left_ right_ = Some m' →
  dom m' = dom m ∧
  (∀ a, ¬ (left_ ≤ a < right_) → m' !! a = m !! a) ∧
  (∀ a v, m' !! a = Some v → ∃ a', m !! a' = Some v).
Proof.
  revert m left_ right_. induction (lt_wf n) as [n _ IH].
  intros m left_ right_ Hn. rewrite reverse_loop_step.
  destruct (decide (left_ < right_)) as [Hlt|Hge]; [|intros [= <-]; eauto].
  destruct (decide (left_ >= right_ - 1)) as [Hbr|Hgo];
    [intros [= <-]; eauto|].
  destruct (swap_cells m left_ (right_ - 1)) as [m1|] eqn:Hswap; [simpl|done].
  apply swap_cells_inv in Hswap as (x & y & Hx & Hy & ->).
  intros Hrun.
  apply (IH (n - 2)%nat ltac:(lia)) in Hrun as (Hdom & Hout & Hval); [|lia].
  split; [|split].
  - rewrite Hdom, !dom_insert_lookup_L; [done|eauto|].
    apply insert_is_Some. eauto.
  - intros a Ha. rewrite Hout, !lookup_insert_ne by lia. done.
  - intros a v Hv. apply Hval in Hv as [a' Ha'].
    rewrite !lookup_insert in Ha'. repeat case_decide; simplify_eq; eauto.
Qed.

Lemma copy_loop_envelope (n : nat) (m m' : mem) (d s end_ : Z) :
  end_ - s ≤ Z.of_nat n →
  copy_loop m d s end_ = Some m' →
  dom m' = dom m ∧
  (∀ a, ¬ (d ≤ a < d + (end_ - s)) → m' !! a = m !! a) ∧
  (∀ a v, m' !! a = Some v → ∃ a', m !! a' = Some v).
Proof.
  revert m d s. induction n as [|n IH]; intros m d s Hn;
    rewrite copy_loop_step.
  - rewrite decide_False by lia. intros [= <-]. eauto.
  - destruct (decide (s < end_)) as [Hlt|Hge]; [|intros [= <-]; eauto].
    destruct (copy_cell m d s) as [m1|] eqn:Hcell; [simpl|done].
    apply copy_cell_inv in Hcell as (v & Hv & Hd & ->).
    intros Hrun. apply IH in Hrun as (Hdom & Hout & Hval); [|lia].
    split; [|split].
    + by rewrite Hdom, dom_insert_lookup_L.
    + intros a Ha. rewrite Hout, lookup_insert_ne by lia. done.
    + intros a w Hw. apply Hval in Hw as [a' Ha'].
      rewrite lookup_insert in Ha'. case_decide; simplify_eq; eauto.
Qed.

(** X10. Whatever its arguments, a call of [array_reverse_ptr] that
    completes returns 0 or -1, neither adds cells to the store nor removes
    any, leaves every cell outside [arr .. arr + len - 1] as it was, and
    puts in a cell only a value the store already held. *)
Theorem array_reverse_ptr_envelope
  (m m' : mem) (arr : Z) (len : N) (r : Z) :
  array_reverse_ptr arr len m = Some (r, m') →
  (r = 0 ∨ r = -1) ∧
  dom m' = dom m ∧
  (∀ a, ¬ (arr ≤ a < arr + Z.of_N len) → m' !! a = m !! a) ∧
  (∀ a v, m' !! a = Some v → ∃ a', m !! a' = Some v).
Proof.
  unfold array_reverse_ptr. case_match.
  - intros [= <- <-]. eauto 10.
  - simpl.
    destruct (reverse_loop m arr (arr + Z.of_N len)) as [m1|] eqn:Hloop;
      [simpl|done].
    intros [= <- <-]. split; [by left|].
    apply (reverse_loop_envelope (N.to_nat len)); [lia|done].
Qed.

(** X11. Whatever its arguments, overlapping ranges included, a call of
    [array_copy_ptr] that completes returns 0 or -1, neither adds cells to
    the store nor removes any, leaves every cell outside
    [dst .. dst + len - 1] as it was, and puts in a cell only a value the
    store already held. *)
Theorem array_copy_ptr_envelope
  (m m' : mem) (dst src : Z) (len : N) (r : Z) :
  array_copy_ptr dst src len m = Some (r, m') →
  (r = 0 ∨ r = -1) ∧
  dom m' = dom m ∧
  (∀ a, ¬ (dst ≤ a < dst + Z.of_N len) → m' !! a = m !! a) ∧
  (∀ a v, m' !! a = Some v → ∃ a', m !! a' = Some v).
Proof.
  unfold array_copy_ptr. case_match.
  - intros [= <- <-]. eauto 10.
  - simpl.
    destruct (copy_loop m dst src (src + Z.of_N len)) as [m1|] eqn:Hloop;
      [simpl|done].
    intros [= <- <-]. split; [by left|].
    destruct (copy_loop_envelope (N.to_nat len) m m1 dst src
                (src + Z.of_N len)) as (Hdom & Hout & Hval); [lia|done|].
    split; [done|]. split; [|done].
    intros a Ha. apply Hout. lia.
Qed.

(** X12. Whatever its arguments, a flag slot inside the sequence included,
    a call of [array_max_ptr] that completes writes no cell but the flag
    slot: without a flag slot the store is left as it was, and with one
    the store differs from the initial one in that cell only, which holds
    0 or 1. *)
Theorem array_max_ptr_envelope
  (int_bits : positive) (m m' : mem) (arr : Z) (len : N) (ok v : Z) :
  array_max_ptr int_bits arr len ok m = Some (v, m') →
  dom m' = dom m ∧
  (ok = NULL → m' = m) ∧
  (ok ≠ NULL → m' = <[ok := 0]> m ∨ m' = <[ok := 1]> m).
Proof.
  unfold array_max_ptr.
  destruct (set_flag m ok 0) as [m0|] eqn:Hzero; [simpl|done].
  assert (∀ m1, (ok = NULL ∧ m1 = m) ∨
                (ok ≠ NULL ∧ is_Some (m !! ok) ∧
                 (m1 = <[ok := 0]> m ∨ m1 = <[ok := 1]> m)) →
            dom m1 = dom m ∧ (ok = NULL → m1 = m) ∧
            (ok ≠ NULL → m1 = <[ok := 0]> m ∨ m1 = <[ok := 1]> m)) as Hfin.
  { intros m1 [[-> ->]|(Hok & Hm & Hcase)]; [done|].
    split; [|done].
    destruct Hcase as [-> | ->]; by rewrite dom_insert_lookup_L. }
  apply set_flag_inv in Hzero as Hzero'. case_match.
  - intros [= <- <-]. apply Hfin.
    destruct Hzero' as [[-> ->]|(Hok & Hm & ->)]; [by left|right; eauto].
  - destruct (load m0 arr) as [x|]; [simpl|done].
    destruct (max_loop m0 (arr + 1) (arr + Z.of_N len) x); [simpl|done].
    destruct (set_flag m0 ok 1) as [m1|] eqn:Hone; [simpl|done].
    intros [= <- <-]. apply Hfin. apply set_flag_inv in Hone.
    destruct Hzero' as [[-> ->]|(Hok & Hm & ->)].
    + left. split; [done|]. by destruct Hone as [[_ ->]|[? _]].
    + right. split; [done|]. split; [done|]. right.
      destruct Hone as [[? _]|(_ & _ & ->)]; [done|].
      by rewrite insert_insert_eq.
Qed.

(** ** [array_max_ptr] with the flag slot inside the sequence *)

Lemma array_elems_insert
  (m : mem) (arr : Z) (len : N) (l : list Z) (i : nat) (x : Z) :
  array_elems m arr len = Some l →
  (i < N.to_nat len)%nat →
  array_elems (<[arr + Z.of_nat i := x]> m) arr len = Some (<[i := x]> l).
Proof.
  intros [Hlen Hat]%array_elems_Some Hi. apply array_elems_Some.
  rewrite length_insert. split; [done|]. intros j Hj.
  destruct (decide (j = i)) as [->|Hne].
  - rewrite lookup_insert_eq, list_lookup_insert_eq by lia. done.
  - rewrite lookup_insert_ne, list_lookup_insert_ne by lia. by apply Hat.
Qed.

(** A call with a flag slot is the call without one on the store in which
    the flag has been cleared, followed by the final flag write. *)
Lemma array_max_ptr_flag_first
  (int_bits : positive) (m : mem) (arr : Z) (len : N) (ok : Z) :
  ok ≠ NULL → is_Some (m !! ok) →
  array_max_ptr int_bits arr len ok m =
  (λ r : Z * mem,
     (r.1, <[ok := if bool_decide (arr = NULL) || (len =? 0)%N
                   then 0 else 1]> m))
  <$> array_max_ptr int_bits arr len NULL (<[ok := 0]> m).
Proof.
  intros Hok Hm. unfold array_max_ptr.
  rewrite !set_flag_absent, (set_flag_present m ok 0) by done. simpl.
  destruct (bool_decide (arr = NULL) || (len =? 0)%N); [done|].
  destruct (load (<[ok := 0]> m) arr) as [x|]; [simpl|done].
  destruct (max_loop (<[ok := 0]> m) (arr + 1) (arr + Z.of_N len) x)
    as [v|]; [simpl|done].
  rewrite set_flag_present by (try done; by rewrite lookup_insert_eq).
  simpl. by rewrite insert_insert_eq.
Qed.

(** X13. When the flag slot is element [i] of a present sequence, the flag
    write [*ok = 0] lands in the sequence before the scan: the value
    returned is the maximum of the sequence with element [i] replaced by
    0, and after the call element [i] holds 1 and the other elements are
    unchanged. *)
Theorem array_max_ptr_aliased_flag
  (int_bits : positive) (m : mem) (arr : Z) (len : N) (l : list Z) (i : nat) :
  arr ≠ NULL →
  array_elems m arr len = Some l →
  (i < N.to_nat len)%nat →
  arr + Z.of_nat i ≠ NULL →
  ∃ v, array_max_ptr int_bits arr len (arr + Z.of_nat i) m
       = Some (v, <[arr + Z.of_nat i := 1]> m) ∧
    Forall (λ x, x ≤ v) (<[i := 0]> l) ∧ v ∈ <[i := 0]> l ∧
    array_elems (<[arr + Z.of_nat i := 1]> m) arr len = Some (<[i := 1]> l).
Proof.
  intros Harr Hl Hi Hok.
  pose proof (array_elems_insert m arr len l i 0 Hl Hi) as Hl0.
  destruct (array_max_ptr_scan int_bits _ arr len _ Harr ltac:(lia) Hl0)
    as (v & Hrun & Hub & Hin).
  exists v. rewrite array_max_ptr_flag_first, Hrun; [|done|].
  2:{ apply (array_elems_valid m arr len l); [done|lia]. }
  simpl. rewrite bool_decide_eq_false_2 by done.
  assert ((len =? 0)%N = false) as -> by (apply N.eqb_neq; lia). simpl.
  split; [done|]. split; [done|]. split; [done|].
  by apply array_elems_insert.
Qed.

(** ** Rotation by three reversals *)

Lemma array_elems_join (m : mem) (arr : Z) (n k : N) (l1 l2 : list Z) :
  array_elems m arr n = Some l1 →
  array_elems m (arr + Z.of_N n) k = Some l2 →
  array_elems m arr (n + k) = Some (l1 ++ l2).
Proof.
  intros [Hlen1 Hat1]%array_elems_Some [Hlen2 Hat2]%array_elems_Some.
  apply array_elems_Some. rewrite length_app. split; [lia|]. intros i Hi.
  destruct (decide (i < N.to_nat n)%nat) as [Hlt|Hge].
  - rewrite lookup_app_l by lia. by apply Hat1.
  - rewrite lookup_app_r by lia. rewrite <- Hat2 by lia. f_equal. lia.
Qed.

(** X14. Reversing the first [n] elements of a present sequence, then the
    remaining [k], then all [n + k], rotates the sequence left by [n]: it
    then holds the old elements [n ..] followed by the old elements
    [0 .. n - 1]. All three calls return 0 and no cell outside the
    sequence changes. *)
Theorem rotate_by_three_reversals
  (m : mem) (arr : Z) (n k : N) (l : list Z) :
  arr ≠ NULL → arr + Z.of_N n ≠ NULL →
  array_elems m arr (n + k) = Some l →
  ∃ m1 m2 m3,
    array_reverse_ptr arr n m = Some (0, m1) ∧
    array_reverse_ptr (arr + Z.of_N n) k m1 = Some (0, m2) ∧
    array_reverse_ptr arr (n + k) m2 = Some (0, m3) ∧
    array_elems m3 arr (n + k)
    = Some (drop (N.to_nat n) l ++ take (N.to_nat n) l) ∧
    (∀ a, ¬ (arr ≤ a < arr + Z.of_N (n + k)) → m3 !! a = m !! a).
Proof.
  intros Harr Hmid Hl.
  destruct (array_elems_split m arr n k l Hl) as [Hpre Hrest].
  destruct (array_reverse_ptr_elems m arr n _ Harr Hpre)
    as (m1 & Hrun1 & Hpre1 & Hfr1).
  assert (array_elems m1 (arr + Z.of_N n) k
          = Some (drop (N.to_nat n) l)) as Hrest1.
  { rewrite <- Hrest. apply array_elems_ext. intros i Hi. apply Hfr1. lia. }
  destruct (array_reverse_ptr_elems m1 (arr + Z.of_N n) k _ Hmid Hrest1)
    as (m2 & Hrun2 & Hrest2 & Hfr2).
  assert (array_elems m2 arr n = Some (reverse (take (N.to_nat n) l)))
    as Hpre2.
  { rewrite <- Hpre1. apply array_elems_ext. intros i Hi. apply Hfr2. lia. }
  pose proof (array_elems_join m2 arr n k _ _ Hpre2 Hrest2) as Hall2.
  destruct (array_reverse_ptr_elems m2 arr (n + k) _ Harr Hall2)
    as (m3 & Hrun3 & Hall3 & Hfr3).
  exists m1, m2, m3. split; [done|]. split; [done|]. split; [done|]. split.
  - rewrite Hall3. f_equal. by rewrite reverse_app, !reverse_involutive.
  - intros a Ha. rewrite Hfr3, Hfr2, Hfr1 by lia. done.
Qed.

(** ** Copying a sequence onto itself *)

(** X15. Copying a present sequence onto itself ([dst == src]) returns 0
    and leaves the whole store as it was. *)
Theorem array_copy_ptr_self (m : mem) (arr : Z) (len : N) (l : list Z) :
  arr ≠ NULL →
  array_elems m arr len = Some l →
  array_copy_ptr arr arr len m = Some (0, m).
Proof.
  intros Harr Hl. unfold array_copy_ptr.
  rewrite !bool_decide_eq_false_2 by done. simpl.
  destruct (copy_loop_descending_safe (N.to_nat len) m arr arr
              (arr + Z.of_N len)) as (m' & -> & Hm').
  { lia. }
  { done. }
  { by apply (array_elems_valid m arr len l). }
  { intros a Ha. apply (array_elems_valid m arr len l); [done|lia]. }
  simpl. do 2 f_equal. apply map_eq. intros a. rewrite Hm'.
  case_decide; [|done]. f_equal. lia.
Qed.

(** ** The further properties at concrete inputs *)

Lemma array_copy_ptr_downward_overlap_witness :
  10 ≠ NULL ∧ 12 ≠ NULL ∧
  array_elems mem_12345 10 3 = Some [1; 2; 3] ∧
  array_elems mem_12345 12 3 = Some [3; 4; 5] ∧
  10 ≤ 12 ∧
  ∃ m', array_copy_ptr 10 12 3 mem_12345 = Some (0, m') ∧
    array_elems m' 10 3 = Some [3; 4; 5] ∧
    (∀ a, ¬ (10 ≤ a < 10 + Z.of_N 3) → m' !! a = mem_12345 !! a).
Proof.
  split; [done|]. split; [done|]. split; [reflexivity|].
  split; [reflexivity|]. split; [lia|].
  apply (array_copy_ptr_downward_overlap mem_12345 10 12 3 [1; 2; 3] [3; 4; 5]);
    [done|done|reflexivity|reflexivity|lia].
Defined.

Lemma array_copy_ptr_upward_overlap_witness :
  11 ≠ NULL ∧ 10 ≠ NULL ∧
  array_elems mem_12345 11 4 = Some [2; 3; 4; 5] ∧
  array_elems mem_12345 10 4 = Some [1; 2; 3; 4] ∧
  10 < 11 ∧
  ∃ m', array_copy_ptr 11 10 4 mem_12345 = Some (0, m') ∧
    (∀ i, 0 ≤ i < Z.of_N 4 →
       m' !! (11 + i) = mem_12345 !! (10 + i mod (11 - 10))) ∧
    (∀ a, ¬ (11 ≤ a < 11 + Z.of_N 4) → m' !! a = mem_12345 !! a).
Proof.
  split; [done|]. split; [done|]. split; [reflexivity|].
  split; [reflexivity|]. split; [lia|].
  apply (array_copy_ptr_upward_overlap mem_12345 11 10 4
           [2; 3; 4; 5] [1; 2; 3; 4]);
    [done|done|reflexivity|reflexivity|lia].
Defined.

Lemma sum_after_reverse_witness :
  10 ≠ NULL ∧
  array_elems mem_12345 10 5 = Some [1; 2; 3; 4; 5] ∧
  ∃ m' s, array_reverse_ptr 10 5 mem_12345 = Some (0, m') ∧
    array_sum_ptr 32 10 5 mem_12345 = Some s ∧
    array_sum_ptr 32 10 5 m' = Some s.
Proof.
  split; [done|]. split; [reflexivity|].
  apply (sum_after_reverse 32 mem_12345 10 5 [1; 2; 3; 4; 5]);
    [done|reflexivity].
Defined.

Lemma max_after_reverse_witness :
  10 ≠ NULL ∧ (1 ≤ 4)%N ∧
  array_elems mem_max 10 4 = Some [3; -1; 7; 2] ∧
  flag_apart mem_max 10 4 40 ∧
  ∃ m' v m1 m2, array_reverse_ptr 10 4 mem_max = Some (0, m') ∧
    array_max_ptr 32 10 4 40 mem_max = Some (v, m1) ∧
    array_max_ptr 32 10 4 40 m' = Some (v, m2).
Proof.
  assert (flag_apart mem_max 10 4 40) as Hflag
    by (right; split; [by eexists|lia]).
  split; [done|]. split; [lia|]. split; [reflexivity|].
  split; [exact Hflag|].
  apply (max_after_reverse 32 mem_max 10 4 40 [3; -1; 7; 2]);
    [done|lia|reflexivity|exact Hflag].
Defined.

Lemma sum_after_copy_witness :
  30 ≠ NULL ∧ 20 ≠ NULL ∧
  array_elems mem_copy 30 3 = Some [0; 0; 0] ∧
  array_elems mem_copy 20 3 = Some [7; 8; 9] ∧
  (30 + Z.of_N 3 ≤ 20 ∨ 20 + Z.of_N 3 ≤ 30) ∧
  ∃ m' s, array_copy_ptr 30 20 3 mem_copy = Some (0, m') ∧
    array_sum_ptr 32 20 3 mem_copy = Some s ∧
    array_sum_ptr 32 30 3 m' = Some s.
Proof.
  split; [done|]. split; [done|]. split; [reflexivity|].
  split; [reflexivity|]. split; [lia|].
  apply (sum_after_copy 32 mem_copy 30 20 3 [0; 0; 0] [7; 8; 9]);
    [done|done|reflexivity|reflexivity|lia].
Defined.


Lemma array_sum_ptr_exact_witness :
  10 ≠ NULL ∧
  array_elems mem_partial 10 3 = Some [2147483647; 1; -1] ∧
  INT_MIN 32 ≤ sum_Z [2147483647; 1; -1] ≤ INT_MAX 32 ∧
  array_sum_ptr 32 10 3 mem_partial = Some (sum_Z [2147483647; 1; -1]).
Proof.
  assert (INT_MIN 32 ≤ sum_Z [2147483647; 1; -1] ≤ INT_MAX 32) as Hfit
    by (split; by vm_compute).
  split; [done|]. split; [reflexivity|]. split; [exact Hfit|].
  apply (array_sum_ptr_exact 32 mem_partial 10 3 [2147483647; 1; -1]);
    [done|reflexivity|exact Hfit].
Defined.

Lemma array_sum_ptr_split_witness :
  10 ≠ NULL ∧ 10 + Z.of_N 1 ≠ NULL ∧
  array_elems mem_1234 10 (1 + 3) = Some [1; 2; 3; 4] ∧
  ∃ a b, array_sum_ptr 32 10 1 mem_1234 = Some a ∧
    array_sum_ptr 32 (10 + Z.of_N 1) 3 mem_1234 = Some b ∧
    array_sum_ptr 32 10 (1 + 3) mem_1234 = Some (int_add 32 a b).
Proof.
  split; [done|]. split; [done|]. split; [reflexivity|].
  apply (array_sum_ptr_split 32 mem_1234 10 1 3 [1; 2; 3; 4]);
    [done|done|reflexivity].
Defined.

Lemma readers_depend_on_sequence_only_witness :
  (∀ i, 0 ≤ i < Z.of_N 4 →
     (<[40 := 7]> mem_1234 : mem) !! (10 + i) = mem_1234 !! (10 + i)) ∧
  (array_sum_ptr 32 10 4 (<[40 := 7]> mem_1234)
   = array_sum_ptr 32 10 4 mem_1234
   ∧ fst <$> array_max_ptr 32 10 4 NULL (<[40 := 7]> mem_1234)
     = fst <$> array_max_ptr 32 10 4 NULL mem_1234).
Proof.
  assert (∀ i, 0 ≤ i < Z.of_N 4 →
            (<[40 := 7]> mem_1234 : mem) !! (10 + i) = mem_1234 !! (10 + i))
    as Hsame by (intros i Hi; apply lookup_insert_ne; lia).
  split; [exact Hsame|].
  apply (readers_depend_on_sequence_only 32 mem_1234 (<[40 := 7]> mem_1234)
           10 4 Hsame).
Defined.

Lemma array_reverse_ptr_envelope_witness :
  array_reverse_ptr 10 5 mem_12345
  = Some (0, list_to_map [(10, 5); (11, 4); (12, 3); (13, 2); (14, 1)]) ∧
  ((0 = 0 ∨ 0 = -1) ∧
   dom (list_to_map [(10, 5); (11, 4); (12, 3); (13, 2); (14, 1)] : mem)
   = dom mem_12345 ∧
   (∀ a, ¬ (10 ≤ a < 10 + Z.of_N 5) →
      (list_to_map [(10, 5); (11, 4); (12, 3); (13, 2); (14, 1)] : mem) !! a
      = mem_12345 !! a) ∧
   (∀ a v,
      (list_to_map [(10, 5); (11, 4); (12, 3); (13, 2); (14, 1)] : mem) !! a
      = Some v → ∃ a', mem_12345 !! a' = Some v)).
Proof.
  assert (array_reverse_ptr 10 5 mem_12345
          = Some (0, list_to_map
                       [(10, 5); (11, 4); (12, 3); (13, 2); (14, 1)]))
    as Hrun by (vm_compute; reflexivity).
  split; [exact Hrun|].
  apply (array_reverse_ptr_envelope mem_12345 _ 10 5 0 Hrun).
Defined.

Lemma array_copy_ptr_envelope_witness :
  array_copy_ptr 30 20 3 mem_copy
  = Some (0, list_to_map
               [(20, 7); (21, 8); (22, 9); (30, 7); (31, 8); (32, 9)]) ∧
  ((0 = 0 ∨ 0 = -1) ∧
   dom (list_to_map
          [(20, 7); (21, 8); (22, 9); (30, 7); (31, 8); (32, 9)] : mem)
   = dom mem_copy ∧
   (∀ a, ¬ (30 ≤ a < 30 + Z.of_N 3) →
      (list_to_map
         [(20, 7); (21, 8); (22, 9); (30, 7); (31, 8); (32, 9)] : mem) !! a
      = mem_copy !! a) ∧
   (∀ a v,
      (list_to_map
         [(20, 7); (21, 8); (22, 9); (30, 7); (31, 8); (32, 9)] : mem) !! a
      = Some v → ∃ a', mem_copy !! a' = Some v)).
Proof.
  assert (array_copy_ptr 30 20 3 mem_copy
          = Some (0, list_to_map
                       [(20, 7); (21, 8); (22, 9);
                        (30, 7); (31, 8); (32, 9)]))
    as Hrun by (vm_compute; reflexivity).
  split; [exact Hrun|].
  apply (array_copy_ptr_envelope mem_copy _ 30 20 3 0 Hrun).
Defined.

Lemma array_max_ptr_envelope_witness :
  array_max_ptr 32 10 1 10 mem_5 = Some (0, {[ 10 := 1 ]}) ∧
  (dom ({[ 10 := 1 ]} : mem) = dom mem_5 ∧
   (10 = NULL → ({[ 10 := 1 ]} : mem) = mem_5) ∧
   (10 ≠ NULL →
    ({[ 10 := 1 ]} : mem) = <[10 := 0]> mem_5
    ∨ ({[ 10 := 1 ]} : mem) = <[10 := 1]> mem_5)).
Proof.
  assert (array_max_ptr 32 10 1 10 mem_5 = Some (0, {[ 10 := 1 ]})) as Hrun
    by (vm_compute; reflexivity).
  split; [exact Hrun|].
  apply (array_max_ptr_envelope 32 mem_5 _ 10 1 10 0 Hrun).
Defined.

Lemma array_max_ptr_aliased_flag_witness :
  10 ≠ NULL ∧
  array_elems mem_max 10 4 = Some [3; -1; 7; 2] ∧
  (2 < N.to_nat 4)%nat ∧
  10 + Z.of_nat 2 ≠ NULL ∧
  ∃ v, array_max_ptr 32 10 4 (10 + Z.of_nat 2) mem_max
       = Some (v, <[10 + Z.of_nat 2 := 1]> mem_max) ∧
    Forall (λ x, x ≤ v) (<[2%nat := 0]> [3; -1; 7; 2]) ∧
    v ∈ <[2%nat := 0]> [3; -1; 7; 2] ∧
    array_elems (<[10 + Z.of_nat 2 := 1]> mem_max) 10 4
    = Some (<[2%nat := 1]> [3; -1; 7; 2]).
Proof.
  assert (2 < N.to_nat 4)%nat as Hi by (vm_compute; lia).
  split; [done|]. split; [reflexivity|]. split; [exact Hi|].
  split; [done|].
  apply (array_max_ptr_aliased_flag 32 mem_max 10 4 [3; -1; 7; 2] 2);
    [done|reflexivity|exact Hi|done].
Defined.

Lemma rotate_by_three_reversals_witness :
  10 ≠ NULL ∧ 10 + Z.of_N 2 ≠ NULL ∧
  array_elems mem_12345 10 (2 + 3) = Some [1; 2; 3; 4; 5] ∧
  ∃ m1 m2 m3,
    array_reverse_ptr 10 2 mem_12345 = Some (0, m1) ∧
    array_reverse_ptr (10 + Z.of_N 2) 3 m1 = Some (0, m2) ∧
    array_reverse_ptr 10 (2 + 3) m2 = Some (0, m3) ∧
    array_elems m3 10 (2 + 3)
    = Some (drop (N.to_nat 2) [1; 2; 3; 4; 5]
            ++ take (N.to_nat 2) [1; 2; 3; 4; 5]) ∧
    (∀ a, ¬ (10 ≤ a < 10 + Z.of_N (2 + 3)) → m3 !! a = mem_12345 !! a).
Proof.
  split; [done|]. split; [done|]. split; [reflexivity|].
  apply (rotate_by_three_reversals mem_12345 10 2 3 [1; 2; 3; 4; 5]);
    [done|done|reflexivity].
Defined.

Lemma array_copy_ptr_self_witness :
  10 ≠ NULL ∧
  array_elems mem_1234 10 4 = Some [1; 2; 3; 4] ∧
  array_copy_ptr 10 10 4 mem_1234 = Some (0, mem_1234).
Proof.
  split; [done|]. split; [reflexivity|].
  apply (array_copy_ptr_self mem_1234 10 4 [1; 2; 3; 4]); [done|reflexivity].
Defined.
